(** * van::pool — slot pool, registry channel and monitor (pool.h)

    A shallow embedding of [van::pool::Pool<T>], [Channel], [Monitor] and the
    singleton / thread-local accessors, with the properties of the
    specification stated over it. *)

From stdpp Require Import base option list gmap sets.
From Stdlib Require Import ZArith Lia.

Local Open Scope Z_scope.

(** ** Machine integers and pointers *)

(** Pointers are 64-bit addresses, [nullptr] is address 0.  Pointer
    arithmetic is left unwrapped: the code only forms addresses inside (or one
    past the end of) a block it obtained from malloc. *)
Abbreviation ptr := Z (only parsing).
Definition nullptr : ptr := 0.

(** [uint64_t] / [size_t] arithmetic wraps modulo 2^64. *)
Definition wrap64 (z : Z) : Z := z mod 2 ^ 64.

(** [int] is a 32-bit signed integer. *)
Definition is_int (z : Z) : Prop := - 2 ^ 31 ≤ z < 2 ^ 31.

(** ** A state-and-failure monad

    Member functions mutate their object (and the heap) and have no checked
    failure: a failed run ([None]) stands for undefined behaviour, such as a
    store through a null pointer. *)
Definition Eff (S A : Type) : Type := S → option (A * S).

Global Instance Eff_ret {S} : MRet (Eff S) := λ A x s, Some (x, s).
Global Instance Eff_bind {S} : MBind (Eff S) := λ A B f m s,
  match m s with
  | Some (x, s') => f x s'
  | None => None
  end.

Definition gets {S A} (f : S → A) : Eff S A := λ s, Some (f s, s).
Definition modify {S} (f : S → S) : Eff S unit := λ s, Some (tt, f s).

(** ** Element type layout

    [Pool<T>] depends on [T] only through [sizeof(Obj)], the size of a slot
    ([T inst_] followed by [Obj* next_]); [sizeof(Block)] is the size of the
    block header (one pointer). *)
Class Layout := { sizeof_Block : Z; sizeof_Obj : Z }.

(** [Mem<size>], the fixed-size buffer element type ([char buf_[size]], with
    [size > 0] asserted statically), stands here for the layout of its pool on
    an LP64 target: 8-byte pointers, the slot padded to pointer alignment. *)
Definition Mem (size : Z) : Layout :=
  {| sizeof_Block := 8; sizeof_Obj := (size + 7) / 8 * 8 + 8 |}.

(** The layout used in concrete runs: [Pool<Mem<8>>], 16-byte slots. *)
Definition layout16 : Layout := Mem 8.

(** ** The heap *)

(** The heap holds the two kinds of link field the pool writes, and the
    allocator's book-keeping: the blocks malloc has handed out (base, size). *)
Record Heap := mkHeap {
  obj_next : gmap Z Z;        (* Obj::next_ of the slot at that address *)
  block_next : gmap Z Z;      (* Block::next_ of the block at that address *)
  allocated : list (Z * Z)
}.

Definition empty_Heap : Heap := mkHeap ∅ ∅ [].

Module Pool.

Record Pool := mkPool {
  curr_ : ptr;
  last_ : ptr;
  free_ : ptr;
  blocks_ : ptr;
  cnt_ : Z;             (* int *)
  total_cnt_ : Z;       (* uint64_t *)
  use_cnt_ : Z          (* uint64_t *)
}.

(** The in-class member initialisers. *)
Definition init : Pool :=
  {| curr_ := nullptr; last_ := nullptr; free_ := nullptr; blocks_ := nullptr;
     cnt_ := 128; total_cnt_ := 0; use_cnt_ := 0 |}.

Definition set_curr (v : ptr) (p : Pool) : Pool :=
  mkPool v (last_ p) (free_ p) (blocks_ p) (cnt_ p) (total_cnt_ p) (use_cnt_ p).
Definition set_last (v : ptr) (p : Pool) : Pool :=
  mkPool (curr_ p) v (free_ p) (blocks_ p) (cnt_ p) (total_cnt_ p) (use_cnt_ p).
Definition set_free (v : ptr) (p : Pool) : Pool :=
  mkPool (curr_ p) (last_ p) v (blocks_ p) (cnt_ p) (total_cnt_ p) (use_cnt_ p).
Definition set_blocks (v : ptr) (p : Pool) : Pool :=
  mkPool (curr_ p) (last_ p) (free_ p) v (cnt_ p) (total_cnt_ p) (use_cnt_ p).
Definition set_cnt (v : Z) (p : Pool) : Pool :=
  mkPool (curr_ p) (last_ p) (free_ p) (blocks_ p) v (total_cnt_ p) (use_cnt_ p).
Definition set_total_cnt (v : Z) (p : Pool) : Pool :=
  mkPool (curr_ p) (last_ p) (free_ p) (blocks_ p) (cnt_ p) v (use_cnt_ p).
Definition set_use_cnt (v : Z) (p : Pool) : Pool :=
  mkPool (curr_ p) (last_ p) (free_ p) (blocks_ p) (cnt_ p) (total_cnt_ p) v.

(** A member function runs on its object and the heap. *)
Abbreviation State := (Pool * Heap)%type.

Definition this : Eff State Pool := gets fst.
Definition upd (f : Pool → Pool) : Eff State unit := modify (λ s, (f s.1, s.2)).

(** [obj->next_] as an rvalue: a null or never-written link is undefined. *)
Definition load_next (obj : ptr) : Eff State ptr := λ s,
  if decide (obj = nullptr) then None
  else match obj_next s.2 !! obj with
       | Some v => Some (v, s)
       | None => None
       end.

(** [obj->next_ = v]. *)
Definition store_next (obj v : ptr) : Eff State unit := λ s,
  if decide (obj = nullptr) then None
  else Some (tt, (s.1, mkHeap (<[obj := v]> (obj_next s.2)) (block_next s.2) (allocated s.2))).

(** [block->next_ = v]. *)
Definition store_block_next (block v : ptr) : Eff State unit := λ s,
  if decide (block = nullptr) then None
  else Some (tt, (s.1, mkHeap (obj_next s.2) (<[block := v]> (block_next s.2)) (allocated s.2))).

(** [malloc(size)]: the address it returns is not decided by this code, so it
    is an argument, [block]; a non-null result is entered in the allocator's
    book-keeping. *)
Definition malloc (size : Z) (block : ptr) : Eff State ptr := λ s,
  Some (block,
        (s.1, if decide (block = nullptr) then s.2
              else mkHeap (obj_next s.2) (block_next s.2) ((block, size) :: allocated s.2))).

Section WithLayout.
Context `{Layout}.

(** [sizeof(Block) + (sizeof(Obj) * cnt_)], computed in [size_t]. *)
Definition block_bytes (cnt : Z) : Z := wrap64 (sizeof_Block + wrap64 (sizeof_Obj * wrap64 cnt)).

Definition new_block (fresh : ptr) : Eff State unit :=
  p ← this;
  block ← malloc (block_bytes (cnt_ p)) fresh;
  store_block_next block (blocks_ p);;
  upd (set_blocks block);;
  upd (set_curr (block + sizeof_Block));;
  upd (λ p, set_last (curr_ p + cnt_ p * sizeof_Obj) p);;
  upd (λ p, set_total_cnt (wrap64 (total_cnt_ p + cnt_ p)) p).

(** [T* get()]; [fresh] is what malloc returns should the pool grow. *)
Definition get (fresh : ptr) : Eff State ptr :=
  upd (λ p, set_use_cnt (wrap64 (use_cnt_ p + 1)) p);;
  p ← this;
  if decide (free_ p ≠ nullptr) then
    let obj := free_ p in
    nxt ← load_next (free_ p);
    upd (set_free nxt);;
    mret obj
  else
    (if decide (last_ p ≤ curr_ p) then new_block fresh else mret tt);;
    p ← this;
    upd (set_curr (curr_ p + sizeof_Obj));;
    mret (curr_ p).

(** [void ret(T* t)]. *)
Definition ret (t : ptr) : Eff State unit :=
  upd (λ p, set_use_cnt (wrap64 (use_cnt_ p - 1)) p);;
  p ← this;
  let obj := t in
  store_next obj (free_ p);;
  upd (set_free obj).

(** [Pool(int cnt = 0)], up to the registration with the channel (which
    is added where the registry is in scope). *)
Definition ctor (cnt : Z) (fresh : ptr) : Eff State unit :=
  if decide (0 < cnt) then
    upd (set_cnt cnt);;
    new_block fresh
  else mret tt.

End WithLayout.

Definition total_cnt : Eff Pool Z := gets total_cnt_.
Definition use_cnt : Eff Pool Z := gets use_cnt_.

End Pool.

(** ** The registry: observer interface, Channel, Monitor *)

(** [std::type_index]: an opaque identity of the element type. *)
Abbreviation type_index := nat (only parsing).

(** [Pools]: element type ↦ set of type-erased pool pointers. *)
Abbreviation Pools := (gmap nat (gset Z)).

(** [m[tidx]] as an rvalue after the implicit default insertion. *)
Definition at_key (m : Pools) (tidx : type_index) : gset Z := default ∅ (m !! tidx).

(** The pure virtual interface [IMonitor]: an observer is an object of some
    state type [M] with the two methods. *)
Module IMonitor.
Class t (M : Type) := {
  created : type_index → ptr → M → M;
  deleted : type_index → ptr → M → M
}.
End IMonitor.

(** The calls an observer can receive, and an observer that only records
    them (latest last). *)
Inductive Call :=
  | Created (tidx : type_index) (pool : ptr)
  | Deleted (tidx : type_index) (pool : ptr).

Global Instance Call_eq_dec : EqDecision Call.
Proof. solve_decision. Defined.

Global Instance Recorder : IMonitor.t (list Call) := {|
  IMonitor.created tidx pool log := log ++ [Created tidx pool];
  IMonitor.deleted tidx pool log := log ++ [Deleted tidx pool]
|}.

Definition notify `{IMonitor.t M} (c : Call) (m : M) : M :=
  match c with
  | Created tidx pool => IMonitor.created tidx pool m
  | Deleted tidx pool => IMonitor.deleted tidx pool m
  end.

(** Deliver a sequence of calls, first call first. *)
Definition deliver `{IMonitor.t M} (cs : list Call) (m : M) : M :=
  fold_left (λ m c, notify c m) cs m.

(** A range-for loop whose body runs in the monad. *)
Fixpoint for_each {S A} (l : list A) (body : A → Eff S unit) : Eff S unit :=
  match l with
  | [] => mret tt
  | x :: l' => body x;; for_each l' body
  end.

Module Channel.

Record Channel := mkChannel {
  pools_ : Pools;
  mon_ : ptr           (* IMonitor*, nullptr when no observer is attached *)
}.

(** [Channel() = default]. *)
Definition init : Channel := mkChannel ∅ nullptr.

Section WithObserver.
(** The object [mon_] points to when it is not null.  The locks are left
    out: the model is sequential, every method body runs to its end
    before the next one starts. *)
Context {M : Type} `{IMonitor.t M}.

Abbreviation State := (Channel * M)%type.

Definition this : Eff State Channel := gets fst.
Definition upd (f : Channel → Channel) : Eff State unit := modify (λ s, (f s.1, s.2)).

(** A call through [mon_]. *)
Definition mon_call (f : M → M) : Eff State unit := λ s,
  if decide (mon_ s.1 = nullptr) then None else Some (tt, (s.1, f s.2)).

Definition pass_all : Eff State unit :=
  c ← this;
  if decide (mon_ c = nullptr) then mret tt
  else if decide (pools_ c = ∅) then mret tt
  else
    for_each (map_to_list (pools_ c)) (λ it,
      let tidx := it.1 in
      let poolset := it.2 in
      for_each (elements poolset) (λ pool, mon_call (IMonitor.created tidx pool))).

Definition set (mon : ptr) : Eff State unit :=
  upd (λ c, mkChannel (pools_ c) mon);;
  pass_all.

(** [created<T>(Pool<T>* p)], with [tidx = typeid(T)]. *)
Definition created (tidx : type_index) (pool : ptr) : Eff State unit :=
  c ← this;
  if decide (mon_ c ≠ nullptr) then
    mon_call (IMonitor.created tidx pool);;
    pass_all
  else
    upd (λ c, mkChannel (<[tidx := {[pool]} ∪ at_key (pools_ c) tidx]> (pools_ c)) (mon_ c)).

(** [deleted<T>(Pool<T>* p)]. *)
Definition deleted (tidx : type_index) (pool : ptr) : Eff State unit :=
  c ← this;
  if decide (mon_ c ≠ nullptr) then
    mon_call (IMonitor.deleted tidx pool);;
    pass_all
  else
    upd (λ c, mkChannel (<[tidx := at_key (pools_ c) tidx ∖ {[pool]}]> (pools_ c)) (mon_ c)).

End WithObserver.

End Channel.

(** A range-for loop that threads a local variable through its body. *)
Fixpoint foldM {S A B} (body : B → A → Eff S B) (b : B) (l : list A) : Eff S B :=
  match l with
  | [] => mret b
  | x :: l' => b' ← body b x; foldM body b' l'
  end.

(** The pool objects alive in the process, by address. *)
Abbreviation Objs := (gmap Z Pool.Pool).

Module Monitor.

Record Monitor := mkMonitor { pools_ : Pools }.

Definition init : Monitor := mkMonitor ∅.

Definition created (tidx : type_index) (pool : ptr) (m : Monitor) : Monitor :=
  mkMonitor (<[tidx := {[pool]} ∪ at_key (pools_ m) tidx]> (pools_ m)).

Definition deleted (tidx : type_index) (pool : ptr) (m : Monitor) : Monitor :=
  let poolset := at_key (pools_ m) tidx ∖ {[pool]} in
  if decide (poolset = ∅) then mkMonitor (delete tidx (pools_ m))
  else mkMonitor (<[tidx := poolset]> (pools_ m)).

Global Instance observer : IMonitor.t Monitor := {|
  IMonitor.created := created;
  IMonitor.deleted := deleted
|}.

Record Count := mkCount {
  total_ : Z;     (* uint64_t *)
  use_ : Z;       (* uint64_t *)
  pool_ : Z       (* uint64_t *)
}.

Abbreviation Stat := (gmap nat Count).

(** A member function of the pool at [pool], called through the type-erased
    pointer; the pointer must refer to a pool that is alive. *)
Definition call {A} (pool : ptr) (f : Eff Pool.Pool A) : Eff (Monitor * Objs) A := λ s,
  match s.2 !! pool with
  | Some p =>
      match f p with
      | Some (x, p') => Some (x, (s.1, <[pool := p']> s.2))
      | None => None
      end
  | None => None
  end.

Definition stat : Eff (Monitor * Objs) Stat :=
  m ← gets fst;
  foldM (λ (stat : Stat) it,
    let tidx := it.1 in
    let poolset := it.2 in
    cnt ← foldM (λ cnt pool,
             t ← call pool Pool.total_cnt;
             let cnt := mkCount (wrap64 (total_ cnt + t)) (use_ cnt) (pool_ cnt) in
             u ← call pool Pool.use_cnt;
             mret (mkCount (total_ cnt) (wrap64 (use_ cnt + u)) (pool_ cnt)))
           (mkCount 0 0 0) (elements poolset);
    let cnt := mkCount (total_ cnt) (use_ cnt) (Z.of_nat (size poolset)) in
    mret (<[tidx := cnt]> stat))
    ∅ (map_to_list (pools_ m)).

End Monitor.

(** ** The process: heap, live pools, the Channel and Monitor singletons *)

Record World := mkWorld {
  heap : Heap;
  objs : Objs;
  chan : Channel.Channel;          (* Channel::inst() *)
  monitor : Monitor.Monitor;       (* the static inside Monitor::inst() ... *)
  monitor_guard : bool             (* ... and whether it has been constructed *)
}.

Definition World_init : World := mkWorld empty_Heap ∅ Channel.init Monitor.init false.

(** Run a Channel method: the observer it may call is the Monitor, the only
    class that ever passes itself to [Channel::set]. *)
Definition in_registry {A} (f : Eff (Channel.Channel * Monitor.Monitor) A) : Eff World A := λ w,
  match f (chan w, monitor w) with
  | Some (x, (c, m)) => Some (x, mkWorld (heap w) (objs w) c m (monitor_guard w))
  | None => None
  end.

(** Run a member function of [Monitor::inst()] that may call into pools. *)
Definition in_monitor {A} (f : Eff (Monitor.Monitor * Objs) A) : Eff World A := λ w,
  match f (monitor w, objs w) with
  | Some (x, (m, o)) => Some (x, mkWorld (heap w) o (chan w) m (monitor_guard w))
  | None => None
  end.

(** Run a member function of the pool at [this]. *)
Definition in_pool {A} (this : ptr) (f : Eff Pool.State A) : Eff World A := λ w,
  match objs w !! this with
  | Some p =>
      match f (p, heap w) with
      | Some (x, (p', m')) =>
          Some (x, mkWorld m' (<[this := p']> (objs w)) (chan w) (monitor w) (monitor_guard w))
      | None => None
      end
  | None => None
  end.

(** [free(block)]: the block must be one malloc handed out; its header is
    gone afterwards. *)
Fixpoint remove_block (block : ptr) (l : list (Z * Z)) : option (list (Z * Z)) :=
  match l with
  | [] => None
  | b :: l' => if decide (b.1 = block) then Some l'
               else cons b <$> remove_block block l'
  end.

Definition free (block : ptr) (m : Heap) : option Heap :=
  l ← remove_block block (allocated m);
  Some (mkHeap (obj_next m) (delete block (block_next m)) l).

(** The loop of [~Pool()].  Every round frees one allocated block, so the
    number of allocated blocks bounds the number of rounds. *)
Fixpoint free_blocks (fuel : nat) (block : ptr) (m : Heap) : option Heap :=
  if decide (block = nullptr) then Some m
  else match fuel with
       | O => None
       | S fuel' =>
           next ← block_next m !! block;
           m' ← free block m;
           free_blocks fuel' next m'
       end.

Section Process.
(** [layout T] is the slot layout of element type [T]; the function-local
    statics of [get_singleton_pool<T>] and [get_tls_pool<T>] (for the one
    thread modelled) and of [Monitor::inst] live at fixed addresses. *)
Context (layout : type_index → Layout).
Context (singleton_addr tls_addr : type_index → ptr).
Context (monitor_addr : ptr).

(** [Pool<T>::Pool(int cnt)] for the object at [this]. *)
Definition Pool_ctor (T : type_index) (this : ptr) (cnt : Z) (fresh : ptr) : Eff World unit :=
  modify (λ w, mkWorld (heap w) (<[this := Pool.init]> (objs w)) (chan w) (monitor w) (monitor_guard w));;
  in_pool this (@Pool.ctor (layout T) cnt fresh);;
  in_registry (Channel.created T this).

(** [Pool<T>::~Pool()]. *)
Definition Pool_dtor (T : type_index) (this : ptr) : Eff World unit :=
  in_registry (Channel.deleted T this);;
  in_pool this (λ s, m' ← free_blocks (length (allocated s.2)) (Pool.blocks_ s.1) s.2; Some (tt, (s.1, m')));;
  modify (λ w, mkWorld (heap w) (delete this (objs w)) (chan w) (monitor w) (monitor_guard w)).

(** [static Pool<T> pool(cnt); return pool;] *)
Definition get_static_pool (addr : ptr) (T : type_index) (cnt : Z) (fresh : ptr) : Eff World ptr :=
  o ← gets objs;
  (if decide (is_Some (o !! addr)) then mret tt else Pool_ctor T addr cnt fresh);;
  mret addr.

Definition get_singleton_pool (T : type_index) (cnt : Z) (fresh : ptr) : Eff World ptr :=
  get_static_pool (singleton_addr T) T cnt fresh.

Definition get_tls_pool (T : type_index) (cnt : Z) (fresh : ptr) : Eff World ptr :=
  get_static_pool (tls_addr T) T cnt fresh.

Definition warm_up_singleton (T : type_index) (cnt : Z) (fresh : ptr) : Eff World unit :=
  get_singleton_pool T cnt fresh;; mret tt.

Definition warm_up_tls_pool (T : type_index) (cnt : Z) (fresh : ptr) : Eff World unit :=
  get_tls_pool T cnt fresh;; mret tt.

Definition get_singleton (T : type_index) (fresh : ptr) : Eff World ptr :=
  pool ← get_singleton_pool T 0 fresh;
  in_pool pool (@Pool.get (layout T) fresh).

Definition ret_singleton (T : type_index) (t : ptr) (fresh : ptr) : Eff World unit :=
  pool ← get_singleton_pool T 0 fresh;
  in_pool pool (@Pool.ret t).

Definition get_tls (T : type_index) (fresh : ptr) : Eff World ptr :=
  pool ← get_tls_pool T 0 fresh;
  in_pool pool (@Pool.get (layout T) fresh).

Definition ret_tls (T : type_index) (t : ptr) (fresh : ptr) : Eff World unit :=
  pool ← get_tls_pool T 0 fresh;
  in_pool pool (@Pool.ret t).

(** [Monitor::Monitor()] and [Monitor::~Monitor()]. *)
Definition Monitor_ctor : Eff World unit := in_registry (Channel.set monitor_addr).
Definition Monitor_dtor : Eff World unit := in_registry (Channel.set nullptr).

(** [Monitor::inst()]. *)
Definition Monitor_inst : Eff World unit :=
  g ← gets monitor_guard;
  if (g : bool) then mret tt
  else
    Monitor_ctor;;
    modify (λ w, mkWorld (heap w) (objs w) (chan w) (monitor w) true).

(** [Monitor::inst().stat()], the query of [print_stat]. *)
Definition query_stat : Eff World Monitor.Stat :=
  Monitor_inst;;
  in_monitor Monitor.stat.

End Process.

(** * Vocabulary of the properties *)

(** A call on one pool: [Get fresh] is [get()] where malloc, if it is called,
    returns [fresh]; [Ret t] is [ret(t)]. *)
Inductive Op :=
  | Get (fresh : ptr)
  | Ret (t : ptr).

Definition is_get (o : Op) : bool := match o with Get _ => true | Ret _ => false end.
Definition is_ret (o : Op) : bool := match o with Get _ => false | Ret _ => true end.

(** N and M: the number of [get()] and of [ret()] calls in a sequence. *)
Definition count_gets (ops : list Op) : Z := Z.of_nat (length (filter is_get ops)).
Definition count_rets (ops : list Op) : Z := Z.of_nat (length (filter is_ret ops)).

(** No null pointer is passed to [ret] or produced by malloc. *)
Definition nonnull_op (o : Op) : Prop :=
  match o with Get fresh => fresh ≠ nullptr | Ret t => t ≠ nullptr end.

(** The contract of malloc: the block returned is not null, lies inside the
    64-bit address space and overlaps no block that is still allocated. *)
Definition malloc_ok (block size : Z) (m : Heap) : bool :=
  (0 <? block) && (block + size <=? 2 ^ 64) &&
  forallb (λ b : Z * Z, (b.1 + b.2 <=? block) || (block + size <=? b.1)) (allocated m).

Section PoolSpec.
Import Pool.
Context `{Layout}.

(** The state [new_block] leaves behind when malloc returned [block]. *)
Definition grown (block : ptr) (p : Pool) : Pool :=
  {| curr_ := block + sizeof_Block;
     last_ := block + sizeof_Block + cnt_ p * sizeof_Obj;
     free_ := free_ p;
     blocks_ := block;
     cnt_ := cnt_ p;
     total_cnt_ := wrap64 (total_cnt_ p + cnt_ p);
     use_cnt_ := use_cnt_ p |}.

Definition grown_heap (block : ptr) (p : Pool) (m : Heap) : Heap :=
  mkHeap (obj_next m) (<[block := blocks_ p]> (block_next m))
        ((block, block_bytes (cnt_ p)) :: allocated m).

(** The calls of a sequence in order; the result lists what the [get()]s
    returned. *)
Fixpoint exec (ops : list Op) : Eff State (list ptr) :=
  match ops with
  | [] => mret []
  | Get fresh :: ops' => a ← get fresh; outs ← exec ops'; mret (a :: outs)
  | Ret t :: ops' => ret t;; exec ops'
  end.

(** The whole life of a pool in a heap [m]: construction, then the calls. *)
Definition life (cnt : Z) (fresh0 : ptr) (ops : list Op) (m : Heap) : option (list ptr * State) :=
  (ctor cnt fresh0;; exec ops) (init, m).

(** The block slot count of a pool constructed as [Pool(cnt)]. *)
Definition slots (cnt : Z) : Z := if decide (0 < cnt) then cnt else 128.

(** [get()] is about to call [new_block]. *)
Definition grows (p : Pool) : bool :=
  bool_decide (free_ p = nullptr) && bool_decide (last_ p ≤ curr_ p).

(** The calls respect the contracts of [ret] and of malloc: every [ret(t)]
    passes a pointer that a preceding [get()] returned and that has not been
    returned since ([live] holds those pointers), and every malloc the pool
    makes is answered as [malloc_ok] says. *)
Fixpoint well_used (ops : list Op) (s : State) (live : gset Z) : bool :=
  match ops with
  | [] => true
  | Get fresh :: ops' =>
      (if grows s.1 then malloc_ok fresh (block_bytes (cnt_ s.1)) s.2 else true) &&
      match get fresh s with
      | Some (a, s') => well_used ops' s' ({[a]} ∪ live)
      | None => true
      end
  | Ret t :: ops' =>
      bool_decide (t ∈ live) &&
      match ret t s with
      | Some (_, s') => well_used ops' s' (live ∖ {[t]})
      | None => true
      end
  end.

Definition life_ok (cnt : Z) (fresh0 : ptr) (ops : list Op) (m : Heap) : bool :=
  (if decide (0 < cnt) then malloc_ok fresh0 (block_bytes cnt) m else true) &&
  match ctor cnt fresh0 (init, m) with
  | Some (_, s) => well_used ops s ∅
  | None => true
  end.

(** The layout is sane and a block of [cnt] slots has a size that [size_t]
    can hold. *)
Definition layout_ok (cnt : Z) : Prop :=
  0 ≤ sizeof_Block ∧ 0 < sizeof_Obj ∧ sizeof_Block + sizeof_Obj * cnt < 2 ^ 64.

(** The counters of a pool object hold [uint64_t] values. *)
Definition counters_ok (p : Pool) : Prop :=
  0 ≤ total_cnt_ p < 2 ^ 64 ∧ 0 ≤ use_cnt_ p < 2 ^ 64.

(** Every link reachable from the head of the free list has been written:
    [W] holds the slots whose link is known. *)
Definition links_closed (next : gmap Z Z) (W : gset Z) : Prop :=
  ∀ a, a ∈ W → ∃ n, next !! a = Some n ∧ (n = nullptr ∨ n ∈ W).

Definition free_safe (s : State) : Prop :=
  ∃ W, (free_ s.1 = nullptr ∨ free_ s.1 ∈ W) ∧ links_closed (obj_next s.2) W.

End PoolSpec.

(** ** The representation invariant of a pool

    Ghost state: what the fields of a pool and the heap stand for. *)
Record Ghost := mkGhost {
  g_blocks : list Z;     (* the blocks of the pool, newest first *)
  g_issued : gset Z;     (* the slots the bump cursor has handed out *)
  g_free : list Z;       (* the free list, head first *)
  g_left : Z             (* the slots between [curr_] and [last_] *)
}.

(** The free list as it lies in the heap. *)
Fixpoint chain (next : gmap Z Z) (head : ptr) (F : list Z) : Prop :=
  match F with
  | [] => head = nullptr
  | a :: F' => head = a ∧ a ≠ nullptr ∧ ∃ n, next !! a = Some n ∧ chain next n F'
  end.

Section PoolInvariant.
Import Pool.
Context `{Layout}.
(** [c] is the block slot count of the pool. *)
Context (c : Z).

(** The bytes of a block, computed without wrap-around. *)
Definition block_size : Z := sizeof_Block + sizeof_Obj * c.

Definition in_block (b x : Z) : Prop := b ≤ x < b + block_size.

(** The cursor is inside the newest block, and every slot handed out lies
    below it or in an older block. *)
Definition bump_ok (p : Pool) (g : Ghost) : Prop :=
  match g_blocks g with
  | [] => g_left g = 0 ∧ g_issued g = ∅
  | b :: bs =>
      blocks_ p = b ∧ b + sizeof_Block ≤ curr_ p ∧
      last_ p = b + sizeof_Block + c * sizeof_Obj ∧
      ∀ x, x ∈ g_issued g → (b + sizeof_Block ≤ x < curr_ p) ∨ (∃ b', b' ∈ bs ∧ in_block b' x)
  end.

Record Inv (s : State) (live : gset Z) (g : Ghost) : Prop := mkInv {
  inv_cnt : cnt_ s.1 = c;
  inv_blocks_nodup : NoDup (g_blocks g);
  inv_blocks_range : ∀ b, b ∈ g_blocks g → 0 < b ∧ b + block_size ≤ 2 ^ 64;
  inv_blocks_disj : ∀ b b', b ∈ g_blocks g → b' ∈ g_blocks g → b ≠ b' →
                            b + block_size ≤ b' ∨ b' + block_size ≤ b;
  inv_blocks_alloc : ∀ b, b ∈ g_blocks g → (b, block_size) ∈ allocated s.2;
  inv_total : total_cnt_ s.1 = c * Z.of_nat (length (g_blocks g));
  inv_left : 0 ≤ g_left g;
  inv_last : last_ s.1 = curr_ s.1 + g_left g * sizeof_Obj;
  inv_bump : bump_ok s.1 g;
  inv_count : Z.of_nat (size (g_issued g)) + g_left g = c * Z.of_nat (length (g_blocks g));
  inv_live : live ⊆ g_issued g;
  inv_free_nodup : NoDup (g_free g);
  inv_free : ∀ a, a ∈ g_free g → a ∈ g_issued g ∧ a ∉ live;
  inv_chain : chain (obj_next s.2) (free_ s.1) (g_free g);
  inv_use : use_cnt_ s.1 = Z.of_nat (size live)
}.

End PoolInvariant.

(** The burst of calls a replay makes: one [created] for every pool in the
    buffered map, in the map's iteration order. *)
Definition calls_of (it : nat * gset Z) : list Call := Created it.1 <$> elements it.2.
Definition buffered (ps : Pools) : list Call := flat_map calls_of (map_to_list ps).

(** What a pool's constructor and destructor tell the channel. *)
Inductive Event :=
  | Construct (tidx : type_index) (pool : ptr)
  | Destroy (tidx : type_index) (pool : ptr).

Definition announce `{IMonitor.t M} (e : Event) : Eff (Channel.Channel * M) unit :=
  match e with
  | Construct tidx pool => Channel.created tidx pool
  | Destroy tidx pool => Channel.deleted tidx pool
  end.

(** The pool [pool] of type [tidx] is alive after the events: the last event
    about it is its construction. *)
Fixpoint is_live (evs : list Event) (tidx : type_index) (pool : ptr) (before : bool) : bool :=
  match evs with
  | [] => before
  | Construct t p :: evs' =>
      is_live evs' tidx pool (if decide (t = tidx ∧ p = pool) then true else before)
  | Destroy t p :: evs' =>
      is_live evs' tidx pool (if decide (t = tidx ∧ p = pool) then false else before)
  end.

(** The sum of a counter over the pools of a set, as [stat] accumulates it. *)
Definition counter_of (f : Pool.Pool → Z) (o : Objs) (pool : ptr) : Z :=
  from_option f 0 (o !! pool).
Definition sum_counter (f : Pool.Pool → Z) (o : Objs) (poolset : gset Z) : Z :=
  foldr Z.add 0 (counter_of f o <$> elements poolset).
Definition count_of (o : Objs) (poolset : gset Z) : Monitor.Count :=
  Monitor.mkCount (wrap64 (sum_counter Pool.total_cnt_ o poolset))
                  (wrap64 (sum_counter Pool.use_cnt_ o poolset))
                  (Z.of_nat (size poolset)).


(** * Vocabulary of the further properties *)

(** The pointers that are out after the calls [ops], whose [get()]s returned
    [outs], when [live] were out before. *)
Fixpoint live_of (ops : list Op) (outs : list Z) (live : gset Z) : gset Z :=
  match ops, outs with
  | Get _ :: ops', a :: outs' => live_of ops' outs' ({[a]} ∪ live)
  | Ret t :: ops', _ => live_of ops' outs (live ∖ {[t]})
  | _, _ => live
  end.

Section PoolLayoutFacts.
Import Pool.
Context `{Layout}.
(** [c] is the block slot count of the pool, [A0] what the allocator had
    handed out before the pool was constructed. *)
Context (c : Z) (A0 : list (Z * Z)).

(** The address of slot [i] of the block at [b]: [(Obj* )(block + 1) + i]. *)
Definition slot_of (b i : Z) : Z := b + sizeof_Block + i * sizeof_Obj.

(** More of what the fields stand for: the block list as it lies in the
    heap, the allocator's list, where the slots are and where they have gone. *)
Record Inv2 (s : State) (live : gset Z) (g : Ghost) : Prop := mkInv2 {
  inv2_blocks : chain (block_next s.2) (blocks_ s.1) (g_blocks g);
  inv2_alloc : allocated s.2 = ((λ b, (b, block_size c)) <$> g_blocks g) ++ A0;
  inv2_slots : ∀ x, x ∈ g_issued g → ∃ b i, b ∈ g_blocks g ∧ 0 ≤ i < c ∧ x = slot_of b i;
  inv2_cover : ∀ x, x ∈ g_issued g → x ∈ live ∨ x ∈ g_free g
}.

End PoolLayoutFacts.

(** The Monitor keeps no type without a pool. *)
Definition no_empty_type (m : Monitor.Monitor) : Prop :=
  ∀ t, Monitor.pools_ m !! t ≠ Some ∅.

(** Every pool of the channel's buffer is listed by the Monitor. *)
Definition buffer_listed (c : Channel.Channel) (m : Monitor.Monitor) : Prop :=
  ∀ t p, p ∈ at_key (Channel.pools_ c) t → p ∈ at_key (Monitor.pools_ m) t.

(** One timed loop of [main]:
    [for (i = 0; i < LOOP; ++i) { T* t = get(); ret(t); }].
    [freshs] has one entry for each round, what malloc returns in that round
    should it be called; the result lists the pointer of every round. *)
Fixpoint timed_loop (get : ptr → Eff World ptr) (ret : ptr → ptr → Eff World unit)
    (freshs : list ptr) : Eff World (list ptr) :=
  match freshs with
  | [] => mret []
  | f :: fs =>
      t ← get f;
      ret t f;;
      ts ← timed_loop get ret fs;
      mret (t :: ts)
  end.

(** What the four accessors share: [get()] and [ret(t)] on the
    function-local static pool at [addr]
    ([return get_tls_pool<T>().get();], [get_singleton_pool<T>().ret(t);]). *)
Definition get_at (layout : type_index → Layout) (addr : ptr) (T : type_index)
    (f : ptr) : Eff World ptr :=
  pool ← get_static_pool layout addr T 0 f;
  in_pool pool (@Pool.get (layout T) f).

Definition ret_at (layout : type_index → Layout) (addr : ptr) (T : type_index)
    (t f : ptr) : Eff World unit :=
  pool ← get_static_pool layout addr T 0 f;
  in_pool pool (Pool.ret t).

Section Bench.
Context (layout : type_index → Layout).
Context (singleton_addr tls_addr : type_index → ptr).
Context (monitor_addr : ptr).

(** The loop over [get_tls<T>] / [ret_tls] and the one over
    [get_singleton<T>] / [ret_singleton]. *)
Definition loop_tls (T : type_index) : list ptr → Eff World (list ptr) :=
  timed_loop (get_tls layout tls_addr T) (ret_tls layout tls_addr T).

Definition loop_singleton (T : type_index) : list ptr → Eff World (list ptr) :=
  timed_loop (get_singleton layout singleton_addr T) (ret_singleton layout singleton_addr T).


End Bench.

Section FirstRound.
Context `{Layout}.

(** The pool and the heap after the first round of a timed loop on a pool
    that did not exist, when malloc returned [f]: one block of 128 slots,
    its first slot on the free list, nothing in use. *)
Definition pool_after_round (f : ptr) : Pool.Pool :=
  {| Pool.curr_ := f + sizeof_Block + sizeof_Obj;
     Pool.last_ := f + sizeof_Block + 128 * sizeof_Obj;
     Pool.free_ := f + sizeof_Block;
     Pool.blocks_ := f;
     Pool.cnt_ := 128;
     Pool.total_cnt_ := 128;
     Pool.use_cnt_ := 0 |}.

Definition heap_after_round (f : ptr) (h : Heap) : Heap :=
  mkHeap (<[f + sizeof_Block := nullptr]> (obj_next h))
         (<[f := nullptr]> (block_next h))
         ((f, Pool.block_bytes 128) :: allocated h).

End FirstRound.

(** * Properties *)

(** Unfold the monad down to the state function. *)
Ltac eff_unfold :=
  unfold mbind, mret, Eff_bind, Eff_ret, gets, modify in *.

Section PoolSteps.
Import Pool.
Context `{Layout}.

Lemma new_block_eq fresh p m :
  fresh ≠ nullptr →
  new_block fresh (p, m) = Some (tt, (grown fresh p, grown_heap fresh p m)).
Proof.
  intros Hf. unfold new_block, this, malloc, store_block_next, upd. eff_unfold. simpl.
  destruct (decide (fresh = nullptr)); [done|]. simpl.
  destruct (decide (fresh = nullptr)); [done|]. reflexivity.
Qed.

Lemma new_block_null p m : new_block nullptr (p, m) = None.
Proof. reflexivity. Qed.

Lemma get_pop fresh p m nxt :
  free_ p ≠ nullptr →
  obj_next m !! free_ p = Some nxt →
  get fresh (p, m) =
    Some (free_ p, (set_free nxt (set_use_cnt (wrap64 (use_cnt_ p + 1)) p), m)).
Proof.
  intros Hf Hn. unfold get, this, load_next, upd. eff_unfold. simpl.
  destruct (decide (free_ p ≠ nullptr)); [|done]. simpl.
  destruct (decide (free_ p = nullptr)); [done|]. simpl. rewrite Hn. reflexivity.
Qed.

Lemma get_grow fresh p m :
  free_ p = nullptr → last_ p ≤ curr_ p → fresh ≠ nullptr →
  get fresh (p, m) =
    Some (fresh + sizeof_Block,
          (set_curr (fresh + sizeof_Block + sizeof_Obj)
             (grown fresh (set_use_cnt (wrap64 (use_cnt_ p + 1)) p)),
           grown_heap fresh p m)).
Proof.
  intros Hf Hc Hn. unfold get, this, upd. eff_unfold. simpl.
  destruct (decide (free_ p ≠ nullptr)); [done|]. simpl.
  destruct (decide (last_ p ≤ curr_ p)); [|lia].
  rewrite new_block_eq by done. reflexivity.
Qed.

Lemma get_bump fresh p m :
  free_ p = nullptr → curr_ p < last_ p →
  get fresh (p, m) =
    Some (curr_ p,
          (set_curr (curr_ p + sizeof_Obj) (set_use_cnt (wrap64 (use_cnt_ p + 1)) p), m)).
Proof.
  intros Hf Hc. unfold get, this, upd. eff_unfold. simpl.
  destruct (decide (free_ p ≠ nullptr)); [done|]. simpl.
  destruct (decide (last_ p ≤ curr_ p)); [lia|]. reflexivity.
Qed.

Lemma ret_eq t p m :
  t ≠ nullptr →
  ret t (p, m) =
    Some (tt, (set_free t (set_use_cnt (wrap64 (use_cnt_ p - 1)) p),
               mkHeap (<[t := free_ p]> (obj_next m)) (block_next m) (allocated m))).
Proof.
  intros Ht. unfold ret, this, store_next, upd. eff_unfold. simpl.
  destruct (decide (t = nullptr)); [done|]. reflexivity.
Qed.

End PoolSteps.

Section PoolBasic.
Import Pool.
Context `{Layout}.

Lemma wrap64_idemp_l x y : wrap64 (wrap64 x + y) = wrap64 (x + y).
Proof. unfold wrap64. apply Zplus_mod_idemp_l. Qed.

Lemma wrap64_small x : 0 ≤ x < 2 ^ 64 → wrap64 x = x.
Proof. intros. unfold wrap64. apply Z.mod_small. lia. Qed.

Lemma exec_app ops1 ops2 s :
  exec (ops1 ++ ops2) s =
    match exec ops1 s with
    | Some (outs1, s1) =>
        match exec ops2 s1 with
        | Some (outs2, s2) => Some (outs1 ++ outs2, s2)
        | None => None
        end
    | None => None
    end.
Proof.
  revert s. induction ops1 as [|[fresh|t] ops1 IH]; intros s; simpl.
  - eff_unfold. destruct (exec ops2 s) as [[outs2 s2]|]; reflexivity.
  - eff_unfold. destruct (get fresh s) as [[a s1]|]; [|reflexivity].
    rewrite IH. destruct (exec ops1 s1) as [[outs1 s1']|]; [|reflexivity].
    destruct (exec ops2 s1') as [[outs2 s2]|]; reflexivity.
  - eff_unfold. destruct (ret t s) as [[[] s1]|]; [|reflexivity].
    apply IH.
Qed.

(** C1: what one call of [get()] does, case by case. *)
Theorem get_behaviour (fresh : ptr) (p : Pool) (m : Heap) :
  (* the free list is not empty: pop its head *)
  (∀ nxt, free_ p ≠ nullptr → obj_next m !! free_ p = Some nxt →
     get fresh (p, m) =
       Some (free_ p, (set_free nxt (set_use_cnt (wrap64 (use_cnt_ p + 1)) p), m))) ∧
  (* the cursor has reached the end of the block, or there is no block yet:
     a new block of [cnt_] slots, then the slot at the cursor *)
  (free_ p = nullptr → last_ p ≤ curr_ p → fresh ≠ nullptr →
     ∃ p' m',
       get fresh (p, m) = Some (fresh + sizeof_Block, (p', m')) ∧
       blocks_ p' = fresh ∧ block_next m' !! fresh = Some (blocks_ p) ∧
       allocated m' = (fresh, block_bytes (cnt_ p)) :: allocated m ∧
       curr_ p' = (fresh + sizeof_Block) + sizeof_Obj ∧
       last_ p' = (fresh + sizeof_Block) + cnt_ p * sizeof_Obj ∧
       total_cnt_ p' = wrap64 (total_cnt_ p + cnt_ p) ∧
       cnt_ p' = cnt_ p ∧ free_ p' = nullptr ∧
       use_cnt_ p' = wrap64 (use_cnt_ p + 1) ∧ obj_next m' = obj_next m) ∧
  (* otherwise: the slot at the cursor *)
  (free_ p = nullptr → curr_ p < last_ p →
     get fresh (p, m) =
       Some (curr_ p,
             (set_curr (curr_ p + sizeof_Obj) (set_use_cnt (wrap64 (use_cnt_ p + 1)) p), m))) ∧
  (* a pool without a block is in the second case, with the default 128 *)
  (free_ init = nullptr ∧ last_ init ≤ curr_ init ∧ blocks_ init = nullptr ∧ cnt_ init = 128).
Proof.
  split; [|split; [|split]].
  - intros nxt Hf Hn. by apply get_pop.
  - intros Hf Hc Hn. eexists _, _. split; [by apply get_grow|].
    simpl. rewrite lookup_insert_eq. rewrite Hf. repeat split; reflexivity.
  - intros Hf Hc. by apply get_bump.
  - repeat split; reflexivity || (simpl; lia).
Qed.

Lemma wrap64_range x : 0 ≤ wrap64 x < 2 ^ 64.
Proof. unfold wrap64. apply Z.mod_pos_bound. lia. Qed.

Lemma wrap64_dec_inc x : 0 ≤ x < 2 ^ 64 → wrap64 (wrap64 (x - 1) + 1) = x.
Proof.
  intros. rewrite wrap64_idemp_l. replace (x - 1 + 1) with x by lia.
  by apply wrap64_small.
Qed.

Lemma lifo_reuse ts : ∀ (freshs : list ptr) p m,
  counters_ok p →
  NoDup ts → Forall (λ t, t ≠ nullptr) ts → length freshs = length ts →
  ∃ m',
    exec (map Ret ts ++ map Get freshs) (p, m) = Some (reverse ts, (p, m')) ∧
    (∀ a, a ∉ ts → obj_next m' !! a = obj_next m !! a) ∧
    block_next m' = block_next m ∧ allocated m' = allocated m.
Proof.
  induction ts as [|t ts IH]; intros freshs p m Hp Hnd Hnz Hlen.
  - destruct freshs; [|done]. exists m. repeat split; reflexivity.
  - destruct (decide (freshs = [])) as [->|Hne]; [done|].
    destruct (exists_last Hne) as (fr & f & ->).
    rewrite length_app in Hlen. simpl in Hlen.
    apply NoDup_cons in Hnd as [Hnotin Hnd].
    apply Forall_cons in Hnz as [Ht Hnz].
    set (p1 := set_free t (set_use_cnt (wrap64 (use_cnt_ p - 1)) p)).
    set (m1 := mkHeap (<[t := free_ p]> (obj_next m)) (block_next m) (allocated m)).
    assert (Hp1 : counters_ok p1).
    { destruct Hp as [Ht' Hu]. split; simpl; [done|apply wrap64_range]. }
    destruct (IH fr p1 m1 Hp1 Hnd Hnz ltac:(lia)) as (m' & He & Hfr & Hb & Ha).
    exists m'. split; [|split; [|split]].
    + rewrite map_app. simpl map. rewrite app_assoc.
      change ((Ret t :: map Ret ts) ++ map Get fr) with (Ret t :: (map Ret ts ++ map Get fr)).
      rewrite exec_app. cbn [exec]. unfold mbind at 1, Eff_bind at 1.
      rewrite (ret_eq t p m Ht). fold p1 m1. rewrite He.
      unfold mbind, Eff_bind.
      assert (Hn : obj_next m' !! free_ p1 = Some (free_ p)).
      { simpl. rewrite (Hfr t Hnotin). simpl. apply lookup_insert_eq. }
      rewrite (get_pop f p1 m' (free_ p)); [|done|done].
      unfold mret, Eff_ret. rewrite reverse_cons. do 3 f_equal.
      destruct Hp as [_ Hu]. destruct p. unfold p1, set_free, set_use_cnt. simpl in *.
      rewrite wrap64_dec_inc by done. reflexivity.
    + intros a Ha'. rewrite Hfr by set_solver. simpl.
      apply lookup_insert_ne. set_solver.
    + by rewrite Hb.
    + by rewrite Ha.
Qed.

(** C6: a slot given back by [ret] is the next one [get] hands out, and a run
    of [ret]s is handed back in reverse order; the pool does not grow
    (malloc is not called, whatever it would return) and ends as it began. *)
Theorem ret_get_lifo (p : Pool) (m : Heap) :
  counters_ok p →
  (∀ t fresh, t ≠ nullptr →
     (ret t;; get fresh) (p, m) =
       Some (t, (p, mkHeap (<[t := free_ p]> (obj_next m)) (block_next m) (allocated m)))) ∧
  (∀ ts freshs, NoDup ts → Forall (λ t, t ≠ nullptr) ts → length freshs = length ts →
     ∃ m', exec (map Ret ts ++ map Get freshs) (p, m) = Some (reverse ts, (p, m')) ∧
           block_next m' = block_next m ∧ allocated m' = allocated m).
Proof.
  intros Hp. split.
  - intros t fresh Ht.
    unfold mbind, Eff_bind. rewrite (ret_eq t p m Ht).
    rewrite (get_pop fresh _ _ (free_ p)); [|done|simpl; apply lookup_insert_eq].
    do 3 f_equal. destruct Hp as [_ Hu]. destruct p. unfold set_free, set_use_cnt. simpl in *.
    rewrite wrap64_dec_inc by done. reflexivity.
  - intros ts freshs Hnd Hnz Hlen.
    destruct (lifo_reuse ts freshs p m Hp Hnd Hnz Hlen) as (m' & He & _ & Hb & Ha).
    eauto.
Qed.

(** [cnt_] is written by the constructor only. *)
Lemma get_eq fresh p m :
  get fresh (p, m) =
    let p1 := set_use_cnt (wrap64 (use_cnt_ p + 1)) p in
    if decide (free_ p ≠ nullptr) then
      match obj_next m !! free_ p with
      | Some nxt => Some (free_ p, (set_free nxt p1, m))
      | None => None
      end
    else if decide (last_ p ≤ curr_ p) then
      if decide (fresh = nullptr) then None
      else Some (fresh + sizeof_Block,
                 (set_curr (fresh + sizeof_Block + sizeof_Obj) (grown fresh p1),
                  grown_heap fresh p m))
    else Some (curr_ p, (set_curr (curr_ p + sizeof_Obj) p1, m)).
Proof.
  cbv zeta. destruct (decide (free_ p ≠ nullptr)) as [Hf|Hf].
  - destruct (obj_next m !! free_ p) as [nxt|] eqn:Hn; [by apply get_pop|].
    unfold get, this, load_next, upd. eff_unfold. simpl.
    destruct (decide (free_ p ≠ nullptr)); [|done]. simpl.
    destruct (decide (free_ p = nullptr)); [done|]. simpl. by rewrite Hn.
  - assert (free_ p = nullptr) as Hf' by (destruct (decide (free_ p = nullptr)); [done|contradiction]).
    destruct (decide (last_ p ≤ curr_ p)) as [Hc|Hc].
    + destruct (decide (fresh = nullptr)) as [->|Hn]; [|by apply get_grow].
      unfold get, this, upd. eff_unfold. simpl.
      destruct (decide (free_ p ≠ nullptr)); [done|]. simpl.
      destruct (decide (last_ p ≤ curr_ p)); [|done]. reflexivity.
    + apply get_bump; [done|lia].
Qed.

Lemma ret_eq' t p m :
  ret t (p, m) =
    if decide (t = nullptr) then None
    else Some (tt, (set_free t (set_use_cnt (wrap64 (use_cnt_ p - 1)) p),
                    mkHeap (<[t := free_ p]> (obj_next m)) (block_next m) (allocated m))).
Proof.
  destruct (decide (t = nullptr)) as [->|Ht]; [reflexivity|by apply ret_eq].
Qed.

Lemma get_cnt fresh s a s' : get fresh s = Some (a, s') → cnt_ s'.1 = cnt_ s.1.
Proof.
  destruct s as [p m]. rewrite get_eq. cbv zeta. intros Hg.
  repeat case_decide; try case_match; simplify_eq; reflexivity.
Qed.

Lemma ret_cnt t s u s' : ret t s = Some (u, s') → cnt_ s'.1 = cnt_ s.1.
Proof.
  destruct s as [p m]. rewrite ret_eq'. intros Hg.
  case_decide; simplify_eq; reflexivity.
Qed.

Lemma rets_no_block ts : ∀ s outs s',
  exec (Ret <$> ts) s = Some (outs, s') →
  total_cnt_ s'.1 = total_cnt_ s.1 ∧ blocks_ s'.1 = blocks_ s.1.
Proof.
  induction ts as [|t ts IH]; intros [p m] outs s' He; simpl in He; eff_unfold.
  - by simplify_eq.
  - rewrite ret_eq' in He. case_decide; [done|].
    apply IH in He as [-> ->]. done.
Qed.

Lemma exec_cnt ops : ∀ s outs s', exec ops s = Some (outs, s') → cnt_ s'.1 = cnt_ s.1.
Proof.
  induction ops as [|[fresh|t] ops IH]; intros s outs s' He; simpl in He; eff_unfold.
  - by simplify_eq.
  - destruct (get fresh s) as [[a s1]|] eqn:Hg; [|done].
    destruct (exec ops s1) as [[outs1 s2]|] eqn:He1; [|done]. simplify_eq.
    rewrite (IH _ _ _ He1). by eapply get_cnt.
  - destruct (ret t s) as [[u s1]|] eqn:Hr; [|done].
    rewrite (IH _ _ _ He). by eapply ret_cnt.
Qed.

Lemma ctor_eq cnt fresh m :
  ctor cnt fresh (init, m) =
    if decide (0 < cnt) then
      if decide (fresh = nullptr) then None
      else Some (tt, (grown fresh (set_cnt cnt init), grown_heap fresh (set_cnt cnt init) m))
    else Some (tt, (init, m)).
Proof.
  unfold ctor. destruct (decide (0 < cnt)); [|reflexivity].
  unfold upd. eff_unfold. simpl.
  destruct (decide (fresh = nullptr)) as [->|Hf]; [reflexivity|].
  by rewrite new_block_eq.
Qed.

Lemma get_free_safe fresh s a s' :
  free_safe s → get fresh s = Some (a, s') → free_safe s'.
Proof.
  destruct s as [p m]. intros (W & Hh & Hcl). rewrite get_eq. cbv zeta. simpl in *.
  destruct (decide (free_ p ≠ nullptr)) as [Hf|Hf].
  - destruct Hh as [Hh|Hh]; [done|].
    destruct (Hcl _ Hh) as (n & Hn & Hn'). rewrite Hn. intros ?; simplify_eq.
    exists W. simpl. split; done.
  - assert (free_ p = nullptr) as Hf' by (destruct (decide (free_ p = nullptr)); [done|contradiction]).
    repeat case_decide; intros ?; simplify_eq; exists W; simpl; split; auto.
Qed.

Lemma ret_free_safe t s u s' :
  free_safe s → ret t s = Some (u, s') → free_safe s'.
Proof.
  destruct s as [p m]. intros (W & Hh & Hcl). rewrite ret_eq'. simpl in *.
  case_decide; [done|]. intros ?; simplify_eq.
  exists ({[t]} ∪ W). simpl. split; [set_solver|].
  intros a Ha. destruct (decide (a = t)) as [->|Hne].
  - exists (free_ p). rewrite lookup_insert_eq. split; [done|]. set_solver.
  - rewrite lookup_insert_ne by done.
    destruct (Hcl a) as (n & Hn & Hn'); [set_solver|]. exists n. split; [done|]. set_solver.
Qed.

Lemma get_succeeds fresh s :
  free_safe s → fresh ≠ nullptr →
  ∃ a s', get fresh s = Some (a, s') ∧ use_cnt_ s'.1 = wrap64 (use_cnt_ s.1 + 1).
Proof.
  destruct s as [p m]. intros (W & Hh & Hcl) Hfr. rewrite get_eq. cbv zeta. simpl in *.
  destruct (decide (free_ p ≠ nullptr)) as [Hf|Hf].
  - destruct Hh as [Hh|Hh]; [done|].
    destruct (Hcl _ Hh) as (n & Hn & Hn'). rewrite Hn. eauto.
  - repeat case_decide; try done; eauto.
Qed.

Lemma count_gets_cons o ops :
  count_gets (o :: ops) = (if is_get o then 1 else 0) + count_gets ops.
Proof. unfold count_gets. rewrite filter_cons. destruct o; simpl; lia. Qed.

Lemma count_rets_cons o ops :
  count_rets (o :: ops) = (if is_ret o then 1 else 0) + count_rets ops.
Proof. unfold count_rets. rewrite filter_cons. destruct o; simpl; lia. Qed.

Lemma exec_succeeds ops : ∀ s,
  free_safe s → Forall nonnull_op ops →
  ∃ outs s', exec ops s = Some (outs, s') ∧
    wrap64 (use_cnt_ s'.1) = wrap64 (use_cnt_ s.1 + count_gets ops - count_rets ops).
Proof.
  induction ops as [|o ops IH]; intros s Hs Hnn.
  - exists [], s. split; [reflexivity|]. f_equal. unfold count_gets, count_rets. simpl. lia.
  - apply Forall_cons in Hnn as [Ho Hnn].
    rewrite count_gets_cons, count_rets_cons. destruct o as [fresh|t]; simpl in *.
    + destruct (get_succeeds fresh s Hs Ho) as (a & s1 & Hg & Hu).
      destruct (IH s1 (get_free_safe _ _ _ _ Hs Hg) Hnn) as (outs & s' & He & Hu').
      exists (a :: outs), s'. eff_unfold. rewrite Hg, He. split; [reflexivity|].
      rewrite Hu', Hu. rewrite <- Z.add_sub_assoc, wrap64_idemp_l. f_equal. lia.
    + destruct s as [p m]. pose proof (ret_eq t p m Ho) as Hr.
      destruct (IH _ (ret_free_safe _ _ _ _ Hs Hr) Hnn) as (outs & s' & He & Hu').
      exists outs, s'. eff_unfold. rewrite Hr, He. split; [reflexivity|].
      rewrite Hu'. simpl. rewrite <- Z.add_sub_assoc, wrap64_idemp_l. f_equal. lia.
Qed.

Lemma get_counters fresh s a s' :
  counters_ok s.1 → get fresh s = Some (a, s') → counters_ok s'.1.
Proof.
  destruct s as [p m]. intros [Ht Hu]. rewrite get_eq. cbv zeta. simpl.
  repeat case_decide; try case_match; intros ?; simplify_eq; split; simpl;
    try done; apply wrap64_range.
Qed.

Lemma ret_counters t s u s' :
  counters_ok s.1 → ret t s = Some (u, s') → counters_ok s'.1.
Proof.
  destruct s as [p m]. intros [Ht Hu]. rewrite ret_eq'.
  case_decide; intros ?; simplify_eq. split; simpl; [done|apply wrap64_range].
Qed.

Lemma exec_counters ops : ∀ s outs s',
  counters_ok s.1 → exec ops s = Some (outs, s') → counters_ok s'.1.
Proof.
  induction ops as [|[fresh|t] ops IH]; intros s outs s' Hc He; simpl in He; eff_unfold.
  - by simplify_eq.
  - destruct (get fresh s) as [[a s1]|] eqn:Hg; [|done].
    destruct (exec ops s1) as [[outs1 s2]|] eqn:He1; [|done]. simplify_eq.
    eapply IH; [|done]. by eapply get_counters.
  - destruct (ret t s) as [[u s1]|] eqn:Hr; [|done].
    eapply IH; [|done]. by eapply ret_counters.
Qed.

(** C10: [use_cnt_] is a 64-bit unsigned counter.  After N [get()]s and M
    [ret()]s in any order it holds (N - M) mod 2^64, and a [ret] at zero wraps
    to 2^64 - 1. *)
Theorem use_cnt_modular (cnt : Z) (fresh0 : ptr) (m : Heap) (ops : list Op) :
  (0 < cnt → fresh0 ≠ nullptr) → Forall nonnull_op ops →
  (∃ outs s', life cnt fresh0 ops m = Some (outs, s') ∧
     use_cnt s'.1 = Some (wrap64 (count_gets ops - count_rets ops), s'.1)) ∧
  (∀ p mp t, t ≠ nullptr → use_cnt_ p = 0 →
     ∃ s', ret t (p, mp) = Some (tt, s') ∧ use_cnt s'.1 = Some (2 ^ 64 - 1, s'.1)).
Proof.
  intros Hf0 Hnn. split.
  - unfold life. unfold mbind at 1, Eff_bind at 1. rewrite ctor_eq.
    assert (∃ s0, (if decide (0 < cnt) then
                     if decide (fresh0 = nullptr) then None
                     else Some (tt, (grown fresh0 (set_cnt cnt init),
                                     grown_heap fresh0 (set_cnt cnt init) m))
                   else Some (tt, (init, m))) = Some (tt, s0) ∧
                  free_ s0.1 = nullptr ∧ use_cnt_ s0.1 = 0 ∧ counters_ok s0.1)
      as (s0 & -> & Hfree & Huse & Hcnt).
    { destruct (decide (0 < cnt)) as [Hc|Hc].
      - destruct (decide (fresh0 = nullptr)); [by specialize (Hf0 Hc)|].
        eexists. split; [reflexivity|]. simpl. repeat split; try done; try apply wrap64_range. 
      - eexists. split; [reflexivity|]. simpl. repeat split; done. }
    destruct (exec_succeeds ops s0) as (outs & s' & He & Hu); [|done|].
    { exists ∅. split; [by left|]. intros a Ha. set_solver. }
    exists outs, s'. split; [done|].
    unfold use_cnt, gets. do 2 f_equal.
    rewrite Huse in Hu.
    replace (0 + count_gets ops - count_rets ops)
      with (count_gets ops - count_rets ops) in Hu by lia.
    rewrite <- Hu. symmetry.
    apply wrap64_small. eapply exec_counters in He as [_ ?]; done.
  - intros p mp t Ht Hz. eexists. split; [by apply ret_eq|].
    simpl. unfold use_cnt, gets. simpl. rewrite Hz. reflexivity.
Qed.

End PoolBasic.

Section Registry.
Context {M : Type} `{IMonitor.t M}.
Import Channel.

Lemma deliver_app (cs1 cs2 : list Call) (m : M) :
  deliver (cs1 ++ cs2) m = deliver cs2 (deliver cs1 m).
Proof. unfold deliver. apply fold_left_app. Qed.

Lemma for_each_created (c : Channel) tidx (l : list Z) (m : M) :
  mon_ c ≠ nullptr →
  for_each l (λ pool, mon_call (IMonitor.created tidx pool)) (c, m) =
    Some (tt, (c, deliver (Created tidx <$> l) m)).
Proof.
  intros Hm. revert m. induction l as [|x l IH]; intros m; simpl; [reflexivity|].
  unfold mbind, Eff_bind, mon_call at 1. simpl.
  destruct (decide (mon_ c = nullptr)); [done|]. apply IH.
Qed.

Lemma for_each_replay (c : Channel) (l : list (nat * gset Z)) (m : M) :
  mon_ c ≠ nullptr →
  for_each l (λ it, let tidx := it.1 in let poolset := it.2 in
                    for_each (elements poolset) (λ pool, mon_call (IMonitor.created tidx pool)))
           (c, m) =
    Some (tt, (c, deliver (flat_map calls_of l) m)).
Proof.
  intros Hm. revert m. induction l as [|it l IH]; intros m; simpl; [reflexivity|].
  unfold mbind, Eff_bind. rewrite for_each_created by done.
  rewrite IH. by rewrite deliver_app.
Qed.

Lemma pass_all_eq (c : Channel) (m : M) :
  pass_all (c, m) =
    Some (tt, (c, if decide (mon_ c = nullptr) then m else deliver (buffered (pools_ c)) m)).
Proof.
  unfold pass_all, this. eff_unfold. simpl.
  destruct (decide (mon_ c = nullptr)) as [Hm|Hm]; [reflexivity|].
  destruct (decide (pools_ c = ∅)) as [He|He].
  - unfold buffered. rewrite He, map_to_list_empty. reflexivity.
  - by apply for_each_replay.
Qed.

Lemma set_eq (mon : ptr) (c : Channel) (m : M) :
  set mon (c, m) =
    Some (tt, (mkChannel (pools_ c) mon,
               if decide (mon = nullptr) then m else deliver (buffered (pools_ c)) m)).
Proof. unfold set, upd. eff_unfold. simpl. by rewrite pass_all_eq. Qed.

Lemma created_eq tidx pool (c : Channel) (m : M) :
  created tidx pool (c, m) =
    if decide (mon_ c ≠ nullptr) then
      Some (tt, (c, deliver (Created tidx pool :: buffered (pools_ c)) m))
    else
      Some (tt, (mkChannel (<[tidx := {[pool]} ∪ at_key (pools_ c) tidx]> (pools_ c)) (mon_ c), m)).
Proof.
  unfold created, this, upd. eff_unfold. simpl.
  destruct (decide (mon_ c ≠ nullptr)) as [Hm|Hm]; [|reflexivity].
  unfold mon_call. simpl. destruct (decide (mon_ c = nullptr)); [done|].
  rewrite pass_all_eq. simpl. destruct (decide (mon_ c = nullptr)); [done|]. reflexivity.
Qed.

Lemma deleted_eq tidx pool (c : Channel) (m : M) :
  deleted tidx pool (c, m) =
    if decide (mon_ c ≠ nullptr) then
      Some (tt, (c, deliver (Deleted tidx pool :: buffered (pools_ c)) m))
    else
      Some (tt, (mkChannel (<[tidx := at_key (pools_ c) tidx ∖ {[pool]}]> (pools_ c)) (mon_ c), m)).
Proof.
  unfold deleted, this, upd. eff_unfold. simpl.
  destruct (decide (mon_ c ≠ nullptr)) as [Hm|Hm]; [|reflexivity].
  unfold mon_call. simpl. destruct (decide (mon_ c = nullptr)); [done|].
  rewrite pass_all_eq. simpl. destruct (decide (mon_ c = nullptr)); [done|]. reflexivity.
Qed.

End Registry.

Lemma deliver_Recorder (cs log : list Call) : deliver cs log = log ++ cs.
Proof.
  revert log. induction cs as [|c cs IH]; intros log; simpl.
  - by rewrite app_nil_r.
  - rewrite IH. destruct c; simpl; by rewrite <- app_assoc.
Qed.

Lemma elem_of_calls_of (call : Call) (it : nat * gset Z) :
  call ∈ calls_of it ↔ ∃ pool, call = Created it.1 pool ∧ pool ∈ it.2.
Proof.
  unfold calls_of. rewrite list_elem_of_fmap. setoid_rewrite elem_of_elements. done.
Qed.

Lemma elem_of_buffered (ps : Pools) (call : Call) :
  call ∈ buffered ps ↔ ∃ tidx pool, call = Created tidx pool ∧ pool ∈ at_key ps tidx.
Proof.
  unfold buffered, at_key. rewrite list_elem_of_In, in_flat_map. split.
  - intros ([t set] & Hin & Hc). apply list_elem_of_In, elem_of_map_to_list in Hin.
    apply list_elem_of_In, elem_of_calls_of in Hc as (pool & -> & Hp). simpl in *.
    exists t, pool. by rewrite Hin.
  - intros (t & pool & -> & Hp). destruct (ps !! t) as [set|] eqn:Hl; simpl in Hp; [|set_solver].
    exists (t, set). split.
    + by apply list_elem_of_In, elem_of_map_to_list.
    + apply list_elem_of_In, elem_of_calls_of. eauto.
Qed.

Lemma NoDup_flat_calls (l : list (nat * gset Z)) : NoDup l.*1 → NoDup (flat_map calls_of l).
Proof.
  induction l as [|it l IH]; simpl; [constructor|].
  intros [Hnotin Hnd]%NoDup_cons. apply NoDup_app. split; [|split].
  - unfold calls_of. apply NoDup_fmap_2; [|apply NoDup_elements].
    intros x y ?. by simplify_eq.
  - intros call [pool [-> Hp]]%elem_of_calls_of Hin.
    apply list_elem_of_In, in_flat_map in Hin as (it' & Hit' & Hc).
    apply list_elem_of_In, elem_of_calls_of in Hc as (pool' & Heq & _).
    simplify_eq. apply Hnotin. rewrite Heq. apply list_elem_of_fmap.
    exists it'. split; [done|]. by apply list_elem_of_In.
  - by apply IH.
Qed.

Lemma NoDup_buffered (ps : Pools) : NoDup (buffered ps).
Proof. apply NoDup_flat_calls, NoDup_fst_map_to_list. Qed.

(** C2: what [Channel::created] and [Channel::deleted] do, without and with an
    observer attached; [m] is the observer object, of any class. *)
Theorem channel_created_deleted {M : Type} `{IMonitor.t M}
    (tidx : type_index) (pool : ptr) (c : Channel.Channel) (m : M) :
  (* no observer: the buffered map is updated, nobody is called *)
  (Channel.mon_ c = nullptr →
     Channel.created tidx pool (c, m) =
       Some (tt, (Channel.mkChannel
                    (<[tidx := {[pool]} ∪ at_key (Channel.pools_ c) tidx]> (Channel.pools_ c))
                    nullptr, m)) ∧
     Channel.deleted tidx pool (c, m) =
       Some (tt, (Channel.mkChannel
                    (<[tidx := at_key (Channel.pools_ c) tidx ∖ {[pool]}]> (Channel.pools_ c))
                    nullptr, m))) ∧
  (* an observer: the call is forwarded, then the whole buffered map is
     replayed, and the channel itself stays as it was *)
  (Channel.mon_ c ≠ nullptr →
     Channel.created tidx pool (c, m) =
       Some (tt, (c, deliver (Created tidx pool :: buffered (Channel.pools_ c)) m)) ∧
     Channel.deleted tidx pool (c, m) =
       Some (tt, (c, deliver (Deleted tidx pool :: buffered (Channel.pools_ c)) m))) ∧
  (* the replay is one [created] for each buffered pool *)
  (NoDup (buffered (Channel.pools_ c)) ∧
   ∀ call, call ∈ buffered (Channel.pools_ c) ↔
           ∃ t p, call = Created t p ∧ p ∈ at_key (Channel.pools_ c) t) ∧
  (* for the recording observer: the calls are appended to its log *)
  (∀ cs log : list Call, deliver cs log = log ++ cs).
Proof.
  split; [|split; [|split]].
  - intros Hm. rewrite created_eq, deleted_eq.
    destruct (decide (Channel.mon_ c ≠ nullptr)); [done|]. rewrite Hm. done.
  - intros Hm. rewrite created_eq, deleted_eq.
    destruct (decide (Channel.mon_ c ≠ nullptr)); done.
  - split; [apply NoDup_buffered|apply elem_of_buffered].
  - apply deliver_Recorder.
Qed.

Lemma at_key_insert (ps : Pools) (t t' : nat) (set : gset Z) :
  at_key (<[t := set]> ps) t' = if decide (t = t') then set else at_key ps t'.
Proof.
  unfold at_key. destruct (decide (t = t')) as [->|Hne].
  - by rewrite lookup_insert_eq.
  - by rewrite lookup_insert_ne.
Qed.

Lemma unobserved_events {M : Type} `{IMonitor.t M} (evs : list Event) :
  ∀ (c : Channel.Channel) (m : M),
    Channel.mon_ c = nullptr →
    ∃ c', for_each evs announce (c, m) = Some (tt, (c', m)) ∧
          Channel.mon_ c' = nullptr ∧
          ∀ t p, p ∈ at_key (Channel.pools_ c') t ↔
                 is_live evs t p (bool_decide (p ∈ at_key (Channel.pools_ c) t)) = true.
Proof.
  induction evs as [|e evs IH]; intros c m Hm.
  - exists c. split; [reflexivity|]. split; [done|]. intros t p. simpl.
    by rewrite bool_decide_eq_true.
  - simpl. unfold mbind, Eff_bind. destruct e as [t0 p0|t0 p0]; simpl.
    + rewrite created_eq. destruct (decide (Channel.mon_ c ≠ nullptr)); [done|].
      edestruct IH as (c' & He & Hm' & Hl); [|rewrite He]; [done|].
      exists c'. split; [done|]. split; [done|]. intros t p. rewrite Hl. simpl.
      rewrite at_key_insert. f_equiv. f_equal.
      destruct (decide (t0 = t ∧ p0 = p)) as [[-> ->]|Hne].
      * rewrite decide_True by done. apply bool_decide_eq_true. set_solver.
      * destruct (decide (t0 = t)) as [->|]; [|done].
        apply bool_decide_ext. set_solver.
    + rewrite deleted_eq. destruct (decide (Channel.mon_ c ≠ nullptr)); [done|].
      edestruct IH as (c' & He & Hm' & Hl); [|rewrite He]; [done|].
      exists c'. split; [done|]. split; [done|]. intros t p. rewrite Hl. simpl.
      rewrite at_key_insert. f_equiv. f_equal.
      destruct (decide (t0 = t ∧ p0 = p)) as [[-> ->]|Hne].
      * rewrite decide_True by done. apply bool_decide_eq_false. set_solver.
      * destruct (decide (t0 = t)) as [->|]; [|done].
        apply bool_decide_ext. set_solver.
Qed.

(** C4: pools are constructed and destroyed while no observer is attached,
    then an observer is installed: [set] sends it one [created] for each pool
    that is alive, and nothing else; nothing was sent before. *)
Theorem set_replays_live (evs : list Event) (mon : ptr) (log : list Call) :
  mon ≠ nullptr →
  ∃ c burst,
    (for_each evs announce;; Channel.set mon) (Channel.init, log) =
      Some (tt, (c, log ++ burst)) ∧
    NoDup burst ∧
    ∀ call, call ∈ burst ↔ ∃ t p, call = Created t p ∧ is_live evs t p false = true.
Proof.
  intros Hmon.
  destruct (unobserved_events evs Channel.init log) as (c' & He & Hm' & Hl); [done|].
  exists (Channel.mkChannel (Channel.pools_ c') mon), (buffered (Channel.pools_ c')).
  split; [|split].
  - unfold mbind, Eff_bind. rewrite He, set_eq.
    destruct (decide (mon = nullptr)); [done|]. by rewrite deliver_Recorder.
  - apply NoDup_buffered.
  - intros call. rewrite elem_of_buffered.
    assert (Hinit : ∀ t p, p ∉ at_key (Channel.pools_ Channel.init) t).
    { intros t p. unfold at_key. simpl. rewrite lookup_empty. simpl. set_solver. }
    split.
    + intros (t & p & -> & Hp). exists t, p. split; [done|].
      destruct (Hl t p) as [Hl1 _]. specialize (Hl1 Hp).
      by rewrite (bool_decide_eq_false_2 _ (Hinit t p)) in Hl1.
    + intros (t & p & -> & Hp). exists t, p. split; [done|].
      destruct (Hl t p) as [_ Hl2]. apply Hl2.
      by rewrite (bool_decide_eq_false_2 _ (Hinit t p)).
Qed.

Section Stat.
Import Monitor.

Lemma call_gets {A} (f : Pool.Pool → A) (pool : ptr) (mon : Monitor) (o : Objs) (p : Pool.Pool) :
  o !! pool = Some p →
  call pool (gets f) (mon, o) = Some (f p, (mon, o)).
Proof.
  intros Hp. unfold call, gets. simpl. rewrite Hp. by rewrite insert_id.
Qed.

Lemma stat_inner (mon : Monitor) (o : Objs) (l : list Z) : ∀ cnt : Count,
  Forall (λ pool, is_Some (o !! pool)) l →
  0 ≤ total_ cnt < 2 ^ 64 → 0 ≤ use_ cnt < 2 ^ 64 →
  foldM (λ cnt pool,
           t ← call pool Pool.total_cnt;
           let cnt := mkCount (wrap64 (total_ cnt + t)) (use_ cnt) (pool_ cnt) in
           u ← call pool Pool.use_cnt;
           mret (mkCount (total_ cnt) (wrap64 (use_ cnt + u)) (pool_ cnt)))
        cnt l (mon, o) =
    Some (mkCount (wrap64 (total_ cnt + foldr Z.add 0 (counter_of Pool.total_cnt_ o <$> l)))
                  (wrap64 (use_ cnt + foldr Z.add 0 (counter_of Pool.use_cnt_ o <$> l)))
                  (pool_ cnt),
          (mon, o)).
Proof.
  induction l as [|pool l IH]; intros cnt Hall Ht Hu.
  - simpl. unfold mret, Eff_ret. rewrite !Z.add_0_r, !wrap64_small by done.
    by destruct cnt.
  - apply Forall_cons in Hall as [[p Hp] Hall]. simpl.
    unfold mbind, Eff_bind. unfold Pool.total_cnt, Pool.use_cnt.
    rewrite (call_gets _ _ _ _ _ Hp). cbv zeta. rewrite (call_gets _ _ _ _ _ Hp).
    unfold mret at 1, Eff_ret at 1.
    fold (@mbind (Eff (Monitor * Objs)) _). 
    rewrite IH; [|done|apply wrap64_range|apply wrap64_range]. simpl.
    assert (Hc : ∀ f, counter_of f o pool = f p).
    { intros f. unfold counter_of. by rewrite Hp. }
    rewrite !Hc, !wrap64_idemp_l, !Z.add_assoc. reflexivity.
Qed.

Lemma stat_outer (mon : Monitor) (o : Objs) (l : list (nat * gset Z)) : ∀ acc : Stat,
  NoDup l.*1 →
  Forall (λ it, ∀ pool, pool ∈ it.2 → is_Some (o !! pool)) l →
  foldM (λ (stat : Stat) it,
      let tidx := it.1 in
      let poolset := it.2 in
      cnt ← foldM (λ cnt pool,
               t ← call pool Pool.total_cnt;
               let cnt := mkCount (wrap64 (total_ cnt + t)) (use_ cnt) (pool_ cnt) in
               u ← call pool Pool.use_cnt;
               mret (mkCount (total_ cnt) (wrap64 (use_ cnt + u)) (pool_ cnt)))
             (mkCount 0 0 0) (elements poolset);
      let cnt := mkCount (total_ cnt) (use_ cnt) (Z.of_nat (size poolset)) in
      mret (<[tidx := cnt]> stat))
    acc l (mon, o) =
  Some ((count_of o <$> (list_to_map l : Pools)) ∪ acc, (mon, o)).
Proof.
  induction l as [|[t set] l IH]; intros acc Hnd Hall.
  - simpl. unfold mret, Eff_ret. by rewrite fmap_empty, (left_id_L ∅ (∪)).
  - apply Forall_cons in Hall as [Hset Hall]. simpl in Hnd.
    apply NoDup_cons in Hnd as [Hnotin Hnd]. simpl in Hset.
    cbn [foldM]. unfold mbind at 1, Eff_bind at 1. cbv zeta. cbn [fst snd].
    unfold mbind at 1, Eff_bind at 1.
    rewrite stat_inner; [| |simpl; lia|simpl; lia].
    2:{ apply Forall_forall. intros pool Hp. apply Hset. by apply elem_of_elements. }
    unfold mret at 1, Eff_ret at 1. rewrite IH by done. do 2 f_equal.
    cbn [total_ use_ pool_]. rewrite !Z.add_0_l.
    change (list_to_map ((t, set) :: l) : Pools) with (<[t := set]> (list_to_map l : Pools)).
    rewrite fmap_insert. rewrite <- insert_union_l.
    rewrite <- insert_union_r.
    + reflexivity.
    + rewrite lookup_fmap. rewrite (not_elem_of_list_to_map_1 _ _ Hnotin). done.
Qed.

(** C9: [stat] changes neither the Monitor's map nor any pool object, and its
    result is made of the pools' two counters only. *)
Theorem stat_read_only (mon : Monitor) (o : Objs) :
  (∀ t pool, pool ∈ at_key (pools_ mon) t → is_Some (o !! pool)) →
  stat (mon, o) = Some (count_of o <$> pools_ mon, (mon, o)) ∧
  (∀ w, monitor w = mon → objs w = o →
        in_monitor stat w = Some (count_of o <$> pools_ mon, w)) ∧
  (∀ p : Pool.Pool, Pool.total_cnt p = Some (Pool.total_cnt_ p, p) ∧
                    Pool.use_cnt p = Some (Pool.use_cnt_ p, p)).
Proof.
  intros Halive.
  assert (Hs : stat (mon, o) = Some (count_of o <$> pools_ mon, (mon, o))).
  { unfold stat. unfold mbind at 1, Eff_bind at 1, gets at 1. cbn [fst].
    rewrite stat_outer.
    - rewrite list_to_map_to_list. by rewrite (right_id_L ∅ (∪)).
    - apply NoDup_fst_map_to_list.
    - apply Forall_forall. intros [t set] Hin pool Hp. simpl in Hp.
      apply elem_of_map_to_list in Hin. apply (Halive t). unfold at_key. by rewrite Hin. }
  split; [done|]. split.
  - intros w <- <-. unfold in_monitor. rewrite Hs. by destruct w.
  - intros p. split; reflexivity.
Qed.

End Stat.

Section MonitorCalls.
Import Monitor.

Lemma monitor_created_elem (m : Monitor) (t t' : nat) (p p' : Z) :
  p' ∈ at_key (pools_ (created t p m)) t' ↔ (t = t' ∧ p = p') ∨ p' ∈ at_key (pools_ m) t'.
Proof.
  unfold created. simpl. rewrite at_key_insert.
  destruct (decide (t = t')) as [->|Hne]; set_solver.
Qed.

Lemma monitor_deleted_elem (m : Monitor) (t t' : nat) (p p' : Z) :
  p' ∈ at_key (pools_ (deleted t p m)) t' ↔ ¬ (t = t' ∧ p = p') ∧ p' ∈ at_key (pools_ m) t'.
Proof.
  unfold deleted. simpl. case_decide as He; simpl.
  - unfold at_key at 1. destruct (decide (t = t')) as [->|Hne].
    + rewrite lookup_delete_eq. simpl. set_solver.
    + rewrite lookup_delete_ne by done. fold (at_key (pools_ m) t'). set_solver.
  - rewrite at_key_insert. destruct (decide (t = t')) as [->|Hne]; set_solver.
Qed.

Lemma monitor_replay_elem (cs : list Call) : ∀ (m : Monitor) (t : nat) (p : Z),
  Forall (λ c, ∃ t' p', c = Created t' p') cs →
  p ∈ at_key (pools_ (deliver cs m)) t ↔ Created t p ∈ cs ∨ p ∈ at_key (pools_ m) t.
Proof.
  induction cs as [|c cs IH]; intros m t p Hall.
  - change (deliver [] m) with m. rewrite elem_of_nil. tauto.
  - apply Forall_cons in Hall as [(t' & p' & ->) Hall].
    change (deliver (Created t' p' :: cs) m) with (deliver cs (created t' p' m)).
    rewrite (IH _ _ _ Hall).
    rewrite monitor_created_elem, elem_of_cons. split.
    + intros [?|[[-> ->]|?]]; auto.
    + intros [[?|?]|?]; simplify_eq; auto.
Qed.

Lemma buffered_all_created (ps : Pools) :
  Forall (λ c, ∃ t' p', c = Created t' p') (buffered ps).
Proof.
  apply Forall_forall. intros c (t & p & -> & _)%elem_of_buffered. eauto.
Qed.

(** With the Monitor attached, a destroyed pool that is in the channel's
    buffer (it was constructed before the Monitor attached) is put back into
    the Monitor's map by the replay that follows the [deleted] call. *)
Lemma deleted_then_replayed (c : Channel.Channel) (m : Monitor) (t : nat) (p : Z) :
  Channel.mon_ c ≠ nullptr → p ∈ at_key (Channel.pools_ c) t →
  ∃ m', Channel.deleted t p (c, m) = Some (tt, (c, m')) ∧ p ∈ at_key (pools_ m') t.
Proof.
  intros Hm Hp. rewrite deleted_eq. destruct (decide (Channel.mon_ c ≠ nullptr)); [|done].
  eexists. split; [reflexivity|].
  change (deliver (Deleted t p :: buffered (Channel.pools_ c)) m)
    with (deliver (buffered (Channel.pools_ c)) (deleted t p m)).
  apply monitor_replay_elem; [apply buffered_all_created|].
  left. apply elem_of_buffered. eauto.
Qed.

(** A pool that is not in the buffer is gone from the Monitor after its
    [deleted] call, and so is its type when no other pool of it is known. *)
Lemma deleted_when_unbuffered (c : Channel.Channel) (m : Monitor) (t : nat) (p : Z) :
  Channel.mon_ c ≠ nullptr → p ∉ at_key (Channel.pools_ c) t →
  ∃ m', Channel.deleted t p (c, m) = Some (tt, (c, m')) ∧
        (p ∉ at_key (pools_ m') t) ∧
        (at_key (Channel.pools_ c) t = ∅ → at_key (pools_ m) t ⊆ {[p]} → pools_ m' !! t = None).
Proof.
  intros Hm Hp. rewrite deleted_eq. destruct (decide (Channel.mon_ c ≠ nullptr)); [|done].
  eexists. split; [reflexivity|].
  change (deliver (Deleted t p :: buffered (Channel.pools_ c)) m)
    with (deliver (buffered (Channel.pools_ c)) (deleted t p m)). split.
  - rewrite monitor_replay_elem by apply buffered_all_created.
    rewrite elem_of_buffered, monitor_deleted_elem. intros [(t' & p' & ? & ?)|[? ?]]; simplify_eq; tauto.
  - intros Hb Hsub.
    assert (Hgone : pools_ (deleted t p m) !! t = None).
    { unfold deleted. rewrite decide_True by set_solver. simpl. apply lookup_delete_eq. }
    revert Hgone. generalize (deleted t p m). intros m0 Hgone.
    assert (Hno : ∀ p', Created t p' ∉ buffered (Channel.pools_ c)).
    { intros p' (t' & p'' & ? & Hin)%elem_of_buffered. simplify_eq. rewrite Hb in Hin. set_solver. }
    revert m0 Hgone Hno. generalize (buffered_all_created (Channel.pools_ c)).
    generalize (buffered (Channel.pools_ c)). intros cs.
    induction cs as [|call cs IH]; intros Hall m0 Hgone Hno; [done|].
    apply Forall_cons in Hall as [(t' & p' & ->) Hall].
    change (deliver (Created t' p' :: cs) m0) with (deliver cs (created t' p' m0)).
    apply IH; [done| |].
    + unfold created. simpl.
      rewrite lookup_insert_ne; [done|]. intros ->. apply (Hno p'). set_solver.
    + intros p'' Hin. apply (Hno p''). set_solver.
Qed.

End MonitorCalls.

Section Accessors.
Context (layout : nat → Layout) (singleton_addr tls_addr : nat → Z).

Lemma get_static_pool_created (addr : ptr) (T : nat) (cnt : Z) (fresh : ptr) (w : World) :
  is_Some (objs w !! addr) →
  get_static_pool layout addr T cnt fresh w = Some (addr, w).
Proof.
  intros Hs. unfold get_static_pool. eff_unfold. simpl.
  destruct (decide (is_Some (objs w !! addr))); done.
Qed.

Lemma Pool_ctor_eq (T : nat) (this : ptr) (cnt : Z) (fresh : ptr) (w : World) :
  Pool_ctor layout T this cnt fresh w =
    match @Pool.ctor (layout T) cnt fresh (Pool.init, heap w) with
    | Some (_, (p, m')) =>
        match Channel.created T this (chan w, monitor w) with
        | Some (_, (c, mo)) =>
            Some (tt, mkWorld m' (<[this := p]> (objs w)) c mo (monitor_guard w))
        | None => None
        end
    | None => None
    end.
Proof.
  unfold Pool_ctor, in_pool, in_registry. eff_unfold. cbn [heap objs chan monitor monitor_guard].
  rewrite lookup_insert_eq.
  destruct (@Pool.ctor (layout T) cnt fresh (Pool.init, heap w)) as [[[] [p m']]|]; [|done].
  cbn [heap objs chan monitor monitor_guard]. rewrite insert_insert_eq.
  destruct (Channel.created T this (chan w, monitor w)) as [[[] [c mo]]|]; done.
Qed.

Lemma get_static_pool_first (addr : ptr) (T : nat) (cnt : Z) (fresh : ptr) (w : World) :
  objs w !! addr = None → (0 < cnt → fresh ≠ nullptr) →
  ∃ w' p m', get_static_pool layout addr T cnt fresh w = Some (addr, w') ∧
             @Pool.ctor (layout T) cnt fresh (Pool.init, heap w) = Some (tt, (p, m')) ∧
             objs w' = <[addr := p]> (objs w) ∧ heap w' = m'.
Proof.
  intros Hnone Hf. unfold get_static_pool. eff_unfold. simpl.
  destruct (decide (is_Some (objs w !! addr))) as [[? Hs]|_]; [congruence|].
  rewrite Pool_ctor_eq, ctor_eq, created_eq.
  destruct (decide (0 < cnt)) as [Hc|Hc].
  - destruct (decide (fresh = nullptr)); [by specialize (Hf Hc)|].
    destruct (decide (Channel.mon_ (chan w) ≠ nullptr)); eexists _, _, _; done.
  - destruct (decide (Channel.mon_ (chan w) ≠ nullptr)); eexists _, _, _; done.
Qed.

(** C8: the block slot count is fixed by the constructor. *)
Theorem block_size_fixed_at_construction (T : nat) (cnt : Z) (fresh : ptr) (m : Heap) :
  is_int cnt →
  (* a positive hint: [cnt] slots per block, and one block at once *)
  (0 < cnt → fresh ≠ nullptr →
     ∃ p m', @Pool.ctor (layout T) cnt fresh (Pool.init, m) = Some (tt, (p, m')) ∧
             Pool.cnt_ p = cnt ∧ Pool.total_cnt p = Some (cnt, p) ∧
             Pool.blocks_ p = fresh ∧
             allocated m' = (fresh, @Pool.block_bytes (layout T) cnt) :: allocated m) ∧
  (* no hint: 128 slots per block, and no block before the first [get] *)
  (cnt ≤ 0 →
     @Pool.ctor (layout T) cnt fresh (Pool.init, m) = Some (tt, (Pool.init, m)) ∧
     Pool.cnt_ Pool.init = 128 ∧ Pool.total_cnt Pool.init = Some (0, Pool.init) ∧
     Pool.blocks_ Pool.init = nullptr ∧
     (∀ ts outs s', @exec (layout T) (Ret <$> ts) (Pool.init, m) = Some (outs, s') →
        Pool.total_cnt s'.1 = Some (0, s'.1) ∧ Pool.blocks_ s'.1 = nullptr) ∧
     (∀ f, f ≠ nullptr →
        ∃ a p' m', @Pool.get (layout T) f (Pool.init, m) = Some (a, (p', m')) ∧
                   Pool.blocks_ p' = f ∧ Pool.total_cnt_ p' = 128)) ∧
  (* the slot count stays what the constructor made it *)
  (∀ s0 ops outs s',
     @Pool.ctor (layout T) cnt fresh (Pool.init, m) = Some (tt, s0) →
     @exec (layout T) ops s0 = Some (outs, s') →
     Pool.cnt_ s'.1 = slots cnt) ∧
  (* a warm-up before the pool exists constructs it with the hint ... *)
  (∀ w, objs w !! singleton_addr T = None → (0 < cnt → fresh ≠ nullptr) →
     ∃ w' p, warm_up_singleton layout singleton_addr T cnt fresh w = Some (tt, w') ∧
             objs w' !! singleton_addr T = Some p ∧ Pool.cnt_ p = slots cnt) ∧
  (* ... and a warm-up after the pool was created does nothing *)
  (∀ w cnt' fresh',
     (is_Some (objs w !! singleton_addr T) →
        warm_up_singleton layout singleton_addr T cnt' fresh' w = Some (tt, w)) ∧
     (is_Some (objs w !! tls_addr T) →
        warm_up_tls_pool layout tls_addr T cnt' fresh' w = Some (tt, w))).
Proof.
  intros Hint. split; [|split; [|split; [|split]]].
  - intros Hc Hf. rewrite ctor_eq. rewrite decide_True by done. rewrite decide_False by done.
    eexists _, _. split; [reflexivity|]. simpl. repeat split.
    unfold Pool.total_cnt, gets. simpl. rewrite wrap64_small; [done|].
    unfold is_int in Hint. lia.
  - intros Hc. rewrite ctor_eq. rewrite decide_False by lia.
    do 4 (split; [done|]). split.
    { intros ts outs s' He. apply rets_no_block in He as [Ht Hb]. simpl in *.
      unfold Pool.total_cnt, gets. by rewrite Ht, Hb. }
    intros f Hf. rewrite get_eq. cbv zeta.
    rewrite decide_False by (simpl; tauto). rewrite decide_True by (simpl; lia).
    rewrite decide_False by done. eexists _, _, _. split; [reflexivity|]. done.
  - intros s0 ops outs s' Hctor He. rewrite (exec_cnt _ _ _ _ He).
    rewrite ctor_eq in Hctor. unfold slots.
    repeat case_decide; simplify_eq; reflexivity.
  - intros w Hnone Hf.
    destruct (get_static_pool_first (singleton_addr T) T cnt fresh w Hnone Hf)
      as (w' & p & m' & Hg & Hctor & Hobjs & _).
    exists w', p. unfold warm_up_singleton, get_singleton_pool. unfold mbind, Eff_bind.
    rewrite Hg. split; [done|]. rewrite Hobjs, lookup_insert_eq. split; [done|].
    rewrite ctor_eq in Hctor. unfold slots.
    repeat case_decide; simplify_eq; reflexivity.
  - intros w cnt' fresh'. split; intros Hs.
    + unfold warm_up_singleton, get_singleton_pool. unfold mbind, Eff_bind.
      by rewrite get_static_pool_created.
    + unfold warm_up_tls_pool, get_tls_pool. unfold mbind, Eff_bind.
      by rewrite get_static_pool_created.
Qed.

End Accessors.

(** ** Blocks in a bounded address space *)

Lemma two64_ge_1 : 1 ≤ 2 ^ 64.
Proof. vm_compute. discriminate. Qed.

Lemma list_max_elem (l : list Z) : l ≠ [] → ∃ x, x ∈ l ∧ ∀ y, y ∈ l → y ≤ x.
Proof.
  induction l as [|a l IH]; [done|]. intros _.
  destruct (decide (l = [])) as [->|Hne].
  - exists a. split; [set_solver|]. intros y Hy. apply list_elem_of_singleton in Hy. lia.
  - destruct (IH Hne) as (x & Hx & Hmax).
    destruct (decide (a ≤ x)).
    + exists x. split; [set_solver|]. intros y [->|Hy]%elem_of_cons; [lia|by apply Hmax].
    + exists a. split; [set_solver|]. intros y [->|Hy]%elem_of_cons; [lia|].
      specialize (Hmax y Hy). lia.
Qed.

(** Pairwise disjoint blocks of [sz] bytes above address 0 and below [hi]:
    there is room for them. *)
Lemma disjoint_blocks_fit (sz : Z) (n : nat) : ∀ (bs : list Z) (hi : Z),
  0 < sz → 1 ≤ hi → length bs = n → NoDup bs →
  (∀ b, b ∈ bs → 0 < b ∧ b + sz ≤ hi) →
  (∀ b b', b ∈ bs → b' ∈ bs → b ≠ b' → b + sz ≤ b' ∨ b' + sz ≤ b) →
  Z.of_nat n * sz ≤ hi - 1.
Proof.
  induction n as [|n IH]; intros bs hi Hsz Hhi Hlen Hnd Hrange Hdisj; [lia|].
  destruct (list_max_elem bs) as (bmax & Hin & Hmax); [by destruct bs|].
  apply elem_of_Permutation in Hin as (rest & Hperm).
  assert (Hnd' : NoDup (bmax :: rest)) by by rewrite <- Hperm.
  apply NoDup_cons in Hnd' as [Hnotin Hnd'].
  assert (Hrest : ∀ b, b ∈ rest → b ∈ bs) by (intros b Hb; rewrite Hperm; set_solver).
  assert (Hbmax : bmax ∈ bs) by (rewrite Hperm; set_solver).
  destruct (Hrange bmax Hbmax) as [Hpos Htop].
  assert (Hbelow : ∀ b, b ∈ rest → 0 < b ∧ b + sz ≤ bmax).
  { intros b Hb. split; [by apply Hrange, Hrest|].
    assert (b ≠ bmax) by (intros ->; done).
    specialize (Hmax b (Hrest b Hb)).
    destruct (Hdisj b bmax (Hrest b Hb) Hbmax ltac:(done)); lia. }
  assert (Z.of_nat n * sz ≤ bmax - 1).
  { apply (IH rest bmax); try done; try lia.
    - apply Permutation_length in Hperm. simpl in Hperm. lia.
    - intros b b' Hb Hb'. apply Hdisj; by apply Hrest. }
  lia.
Qed.

Section PoolInvariantProofs.
Import Pool.
Context `{Layout}.
Context (c : Z).
Hypothesis Hc : 0 < c.
Hypothesis Hlay : layout_ok c.

Lemma block_bytes_eq : block_bytes c = block_size c.
Proof.
  destruct Hlay as (HB & HO & Hfit). unfold block_bytes, block_size.
  assert (c ≤ sizeof_Obj * c) by nia.
  rewrite (wrap64_small c) by lia.
  rewrite (wrap64_small (sizeof_Obj * c)) by lia.
  apply wrap64_small. lia.
Qed.

Lemma block_size_ge : c ≤ block_size c ∧ sizeof_Block + sizeof_Obj ≤ block_size c.
Proof.
  destruct Hlay as (HB & HO & Hfit). unfold block_size.
  assert (c ≤ sizeof_Obj * c) by nia. assert (sizeof_Obj ≤ sizeof_Obj * c) by nia. lia.
Qed.

(** The blocks of a pool cannot hold 2^64 slots or more. *)
Lemma blocks_bound (bs : list Z) :
  NoDup bs →
  (∀ b, b ∈ bs → 0 < b ∧ b + block_size c ≤ 2 ^ 64) →
  (∀ b b', b ∈ bs → b' ∈ bs → b ≠ b' → b + block_size c ≤ b' ∨ b' + block_size c ≤ b) →
  c * Z.of_nat (length bs) < 2 ^ 64.
Proof.
  intros Hnd Hrange Hdisj. pose proof block_size_ge as [Hge _].
  assert (Hpos : 0 < block_size c) by lia.
  pose proof (disjoint_blocks_fit (block_size c) (length bs) bs (2 ^ 64)
                Hpos two64_ge_1 eq_refl Hnd Hrange Hdisj).
  assert (c * Z.of_nat (length bs) ≤ Z.of_nat (length bs) * block_size c).
  { rewrite (Z.mul_comm c). apply Z.mul_le_mono_nonneg_l; lia. }
  lia.
Qed.

Lemma inv_bounds s live g :
  Inv c s live g →
  Z.of_nat (size live) ≤ Z.of_nat (size (g_issued g)) ∧
  Z.of_nat (size (g_issued g)) ≤ c * Z.of_nat (length (g_blocks g)) ∧
  c * Z.of_nat (length (g_blocks g)) < 2 ^ 64.
Proof.
  intros HI. split; [|split].
  - apply inj_le, subseteq_size, HI.
  - pose proof (inv_count _ _ _ _ HI). pose proof (inv_left _ _ _ _ HI). lia.
  - apply blocks_bound; apply HI.
Qed.

Lemma inv_issued_in_block s live g x :
  Inv c s live g → x ∈ g_issued g → ∃ b, b ∈ g_blocks g ∧ in_block c b x ∧ 0 < x.
Proof.
  intros HI Hx. pose proof (inv_bump _ _ _ _ HI) as Hb. unfold bump_ok in Hb.
  destruct Hlay as (HB & HO & Hfit).
  destruct (g_blocks g) as [|b bs] eqn:Hbs.
  - destruct Hb as [_ He]. rewrite He in Hx. set_solver.
  - destruct Hb as (_ & Hlo & Hlast & Hiss).
    pose proof (inv_left _ _ _ _ HI) as Hl. pose proof (inv_last _ _ _ _ HI) as Hla.
    assert (Hr : ∀ b', b' ∈ b :: bs → 0 < b').
    { intros b' Hb'. rewrite <- Hbs in Hb'. by apply (inv_blocks_range _ _ _ _ HI). }
    destruct (Hiss x Hx) as [Hcur|(b' & Hb' & Hin)].
    + exists b. split; [set_solver|]. split.
      * unfold in_block, block_size. nia.
      * specialize (Hr b ltac:(set_solver)). lia.
    + exists b'. split; [set_solver|]. split; [done|].
      specialize (Hr b' ltac:(set_solver)). unfold in_block in Hin. lia.
Qed.

Lemma malloc_ok_spec (fresh sz : Z) (m : Heap) :
  malloc_ok fresh sz m = true →
  0 < fresh ∧ fresh + sz ≤ 2 ^ 64 ∧
  ∀ b s, (b, s) ∈ allocated m → b + s ≤ fresh ∨ fresh + sz ≤ b.
Proof.
  unfold malloc_ok. rewrite !andb_true_iff, forallb_forall.
  intros [[H1 H2] H3]. split; [lia|]. split; [lia|].
  intros b s Hin. apply list_elem_of_In in Hin. specialize (H3 _ Hin). simpl in H3.
  apply orb_true_iff in H3. lia.
Qed.

Lemma chain_insert (next : gmap Z Z) (t v : Z) (F : list Z) : ∀ h,
  t ∉ F → chain next h F → chain (<[t := v]> next) h F.
Proof.
  induction F as [|a F IH]; intros h Hnotin Hch; simpl in *; [done|].
  destruct Hch as (-> & Hnz & n & Hn & Hch).
  split; [done|]. split; [done|]. exists n. split.
  - rewrite lookup_insert_ne; [done|]. set_solver.
  - apply IH; [set_solver|done].
Qed.

Lemma new_block_preserves p m live g fresh :
  Inv c (p, m) live g → g_left g = 0 → malloc_ok fresh (block_bytes c) m = true →
  Inv c (grown fresh p, grown_heap fresh p m) live
        (mkGhost (fresh :: g_blocks g) (g_issued g) (g_free g) c).
Proof.
  intros HI Hleft Hm. rewrite block_bytes_eq in Hm.
  apply malloc_ok_spec in Hm as (Hpos & Htop & Hfar).
  pose proof block_size_ge as [Hge1 Hge2].
  destruct Hlay as (HB & HO & Hfit).
  assert (Hfresh : ∀ b, b ∈ g_blocks g → b + block_size c ≤ fresh ∨ fresh + block_size c ≤ b).
  { intros b Hb. apply (Hfar b (block_size c)). by apply (inv_blocks_alloc _ _ _ _ HI). }
  assert (Hnd : NoDup (fresh :: g_blocks g)).
  { apply NoDup_cons. split; [|apply HI]. intros Hin. specialize (Hfresh _ Hin). lia. }
  assert (Hrange : ∀ b, b ∈ fresh :: g_blocks g → 0 < b ∧ b + block_size c ≤ 2 ^ 64).
  { intros b [->|Hb]%elem_of_cons; [lia|by apply HI]. }
  assert (Hdisj : ∀ b b', b ∈ fresh :: g_blocks g → b' ∈ fresh :: g_blocks g → b ≠ b' →
                          b + block_size c ≤ b' ∨ b' + block_size c ≤ b).
  { intros b b' [->|Hb]%elem_of_cons [->|Hb']%elem_of_cons Hne.
    - done.
    - specialize (Hfresh _ Hb'). lia.
    - specialize (Hfresh _ Hb). lia.
    - by apply HI. }
  pose proof (blocks_bound _ Hnd Hrange Hdisj) as Hbound.
  pose proof (inv_cnt _ _ _ _ HI) as Hcnt. simpl in Hcnt.
  pose proof (inv_total _ _ _ _ HI) as Htot. simpl in Htot.
  constructor; simpl; try done; try apply HI.
  - intros b [->|Hb]%elem_of_cons.
    + rewrite Hcnt, block_bytes_eq. set_solver.
    + apply elem_of_cons. right. by apply (inv_blocks_alloc _ _ _ _ HI).
  - rewrite Htot, Hcnt. simpl length in Hbound.
    rewrite Nat2Z.inj_succ in *. rewrite wrap64_small; lia.
  - lia.
  - rewrite Hcnt. lia.
  - unfold bump_ok. simpl. split; [done|]. split; [lia|]. split; [by rewrite Hcnt|].
    intros x Hx. right. destruct (inv_issued_in_block _ _ _ _ HI Hx) as (b & Hb & Hin & _).
    eauto.
  - pose proof (inv_count _ _ _ _ HI). lia.
Qed.

Lemma bump_preserves p m live g :
  Inv c (p, m) live g → 0 < g_left g →
  (curr_ p ∉ g_issued g) ∧
  Inv c (set_curr (curr_ p + sizeof_Obj) (set_use_cnt (wrap64 (use_cnt_ p + 1)) p), m)
        ({[curr_ p]} ∪ live)
        (mkGhost (g_blocks g) ({[curr_ p]} ∪ g_issued g) (g_free g) (g_left g - 1)).
Proof.
  intros HI Hleft.
  pose proof block_size_ge as [Hge1 Hge2].
  destruct Hlay as (HB & HO & Hfit).
  pose proof (inv_bump _ _ _ _ HI) as Hb. unfold bump_ok in Hb. simpl in Hb.
  pose proof (inv_last _ _ _ _ HI) as Hlast. simpl in Hlast.
  pose proof (inv_blocks_nodup _ _ _ _ HI) as Hnd.
  pose proof (inv_blocks_disj _ _ _ _ HI) as Hdisj.
  pose proof (inv_count _ _ _ _ HI) as Hcount.
  pose proof (inv_bounds _ _ _ HI) as (Hb1 & Hb2 & Hb3).
  pose proof (inv_use _ _ _ _ HI) as Huse. simpl in Huse.
  pose proof (inv_left _ _ _ _ HI) as Hl0.
  destruct (g_blocks g) as [|b bs] eqn:Hbs; [destruct Hb; lia|].
  destruct Hb as (Hhd & Hlo & Hend & Hiss).
  assert (Hin : b ≤ curr_ p < b + block_size c).
  { unfold block_size. nia. }
  assert (Hnew : curr_ p ∉ g_issued g).
  { intros Hx. destruct (Hiss _ Hx) as [?|(b' & Hb' & Hin')]; [lia|].
    apply NoDup_cons in Hnd as [Hnotin _].
    assert (b ≠ b') by (intros ->; done).
    unfold in_block in Hin'.
    destruct (Hdisj b b' ltac:(set_solver) ltac:(set_solver) ltac:(done)); lia. }
  split; [done|].
  assert (Hnl : curr_ p ∉ live) by (intros ?; apply Hnew; by apply (inv_live _ _ _ _ HI)).
  rewrite <- Hbs. clear Hcount Hb1 Hb2 Hb3.
  pose proof (inv_count _ _ _ _ HI) as Hcount.
  pose proof (inv_bounds _ _ _ HI) as (Hb1 & Hb2 & Hb3).
  constructor; simpl; try done; try apply HI.
  - lia.
  - lia.
  - unfold bump_ok. simpl. rewrite Hbs. split; [done|]. split; [lia|]. split; [done|].
    intros x [->%elem_of_singleton|Hx]%elem_of_union; [left; lia|].
    destruct (Hiss x Hx) as [?|?]; [left; lia|by right].
  - rewrite size_union, size_singleton by set_solver. lia.
  - pose proof (inv_live _ _ _ _ HI). set_solver.
  - intros a Ha. destruct (inv_free _ _ _ _ HI a Ha) as [Hai Hal].
    split; [set_solver|]. intros [->%elem_of_singleton|?]%elem_of_union; done.
  - rewrite size_union, size_singleton by set_solver.
    rewrite Huse. rewrite wrap64_small; lia.
Qed.

Lemma pop_preserves p m live g :
  Inv c (p, m) live g → free_ p ≠ nullptr →
  ∃ n F, obj_next m !! free_ p = Some n ∧ g_free g = free_ p :: F ∧ (free_ p ∉ live) ∧
         free_ p ∈ g_issued g ∧
         Inv c (set_free n (set_use_cnt (wrap64 (use_cnt_ p + 1)) p), m)
               ({[free_ p]} ∪ live)
               (mkGhost (g_blocks g) (g_issued g) F (g_left g)).
Proof.
  intros HI Hf.
  pose proof (inv_chain _ _ _ _ HI) as Hch. simpl in Hch.
  pose proof (inv_free_nodup _ _ _ _ HI) as Hnd.
  pose proof (inv_free _ _ _ _ HI) as Hfree.
  pose proof (inv_bounds _ _ _ HI) as (Hb1 & Hb2 & Hb3).
  pose proof (inv_use _ _ _ _ HI) as Huse. simpl in Huse.
  destruct (g_free g) as [|a F] eqn:HF; simpl in Hch; [done|].
  destruct Hch as (Ha & Hnz & n & Hn & Hch). rewrite Ha in *.
  destruct (Hfree a ltac:(set_solver)) as [Hai Hal].
  apply NoDup_cons in Hnd as [Hnotin Hnd].
  exists n, F. do 4 (split; [done|]).
  assert (Hsub : {[a]} ∪ live ⊆ g_issued g).
  { pose proof (inv_live _ _ _ _ HI). set_solver. }
  constructor; simpl; try done; try apply HI.
  - intros x Hx. destruct (Hfree x ltac:(set_solver)) as [Hxi Hxl].
    split; [done|]. intros [->%elem_of_singleton|?]%elem_of_union; done.
  - apply subseteq_size in Hsub. rewrite size_union, size_singleton in * by set_solver.
    rewrite Huse. rewrite wrap64_small; lia.
Qed.

Lemma ret_preserves p m live g t :
  Inv c (p, m) live g → t ∈ live →
  t ≠ nullptr ∧
  Inv c (set_free t (set_use_cnt (wrap64 (use_cnt_ p - 1)) p),
         mkHeap (<[t := free_ p]> (obj_next m)) (block_next m) (allocated m))
        (live ∖ {[t]})
        (mkGhost (g_blocks g) (g_issued g) (t :: g_free g) (g_left g)).
Proof.
  intros HI Ht.
  pose proof (inv_live _ _ _ _ HI) as Hlive.
  pose proof (inv_free _ _ _ _ HI) as Hfree.
  pose proof (inv_bounds _ _ _ HI) as (Hb1 & Hb2 & Hb3).
  pose proof (inv_use _ _ _ _ HI) as Huse. simpl in Huse.
  destruct (inv_issued_in_block _ _ _ _ HI (Hlive _ Ht)) as (_ & _ & _ & Hpos).
  assert (Hnz : t ≠ nullptr) by (unfold nullptr; lia).
  split; [done|].
  assert (Hnotin : t ∉ g_free g) by (intros Hin; by destruct (Hfree _ Hin)).
  constructor; simpl; try done; try apply HI.
  - set_solver.
  - apply NoDup_cons. split; [done|apply HI].
  - intros a [->|Ha]%elem_of_cons; [set_solver|].
    destruct (Hfree a Ha). set_solver.
  - split; [done|]. split; [done|]. exists (free_ p). split; [apply lookup_insert_eq|].
    apply chain_insert; [done|]. apply HI.
  - rewrite size_difference by set_solver. rewrite size_singleton.
    assert (size live ≠ 0%nat).
    { apply size_non_empty_iff. set_solver. }
    rewrite Huse. rewrite wrap64_small; lia.
Qed.

Lemma get_preserves fresh s live g :
  Inv c s live g →
  (grows s.1 = true → malloc_ok fresh (block_bytes (cnt_ s.1)) s.2 = true) →
  ∃ a s' g',
    get fresh s = Some (a, s') ∧ (a ∉ live) ∧ Inv c s' ({[a]} ∪ live) g' ∧
    a ∈ g_issued g' ∧ g_issued g ⊆ g_issued g' ∧
    (length (g_blocks g) ≤ length (g_blocks g'))%nat.
Proof.
  destruct s as [p m]. intros HI Hmalloc. simpl in Hmalloc.
  rewrite get_eq. cbv zeta.
  pose proof (inv_live _ _ _ _ HI) as Hlive.
  destruct (decide (free_ p ≠ nullptr)) as [Hf|Hf].
  - destruct (pop_preserves p m live g HI Hf) as (n & F & Hn & HF & Hnl & Hiss & HI').
    rewrite Hn. eexists _, _, _. split; [reflexivity|]. split; [done|]. split; [exact HI'|].
    simpl. split; [done|]. split; [done|]. lia.
  - assert (free_ p = nullptr) as Hf' by (destruct (decide (free_ p = nullptr)); [done|contradiction]).
    pose proof (inv_last _ _ _ _ HI) as Hlast. simpl in Hlast.
    pose proof (inv_left _ _ _ _ HI) as Hleft.
    pose proof (inv_cnt _ _ _ _ HI) as Hcnt. simpl in Hcnt.
    destruct Hlay as (HB & HO & Hfit).
    destruct (decide (last_ p ≤ curr_ p)) as [Hend|Hend].
    + assert (Hg : grows p = true).
      { unfold grows. rewrite !bool_decide_eq_true_2; done. }
      specialize (Hmalloc Hg). rewrite Hcnt in Hmalloc.
      assert (Hl0 : g_left g = 0) by nia.
      pose proof (new_block_preserves p m live g fresh HI Hl0 Hmalloc) as HI1.
      destruct (bump_preserves _ _ _ _ HI1 ltac:(simpl; lia)) as [Hnew HI2].
      rewrite block_bytes_eq in Hmalloc. apply malloc_ok_spec in Hmalloc as (Hpos & _ & _).
      rewrite decide_False by (unfold nullptr; lia).
      eexists _, _, _. split; [reflexivity|]. simpl in *.
      split; [set_solver|]. split; [exact HI2|]. simpl.
      split; [set_solver|]. split; [set_solver|]. lia.
    + assert (Hl0 : 0 < g_left g) by nia.
      destruct (bump_preserves _ _ _ _ HI Hl0) as [Hnew HI2].
      eexists _, _, _. split; [reflexivity|]. simpl in *.
      split; [set_solver|]. split; [exact HI2|]. simpl.
      split; [set_solver|]. split; [set_solver|]. lia.
Qed.

Lemma run_preserves ops : ∀ ops' s live g,
  Inv c s live g → well_used (ops ++ ops') s live = true →
  ∃ outs s' live' g',
    exec ops s = Some (outs, s') ∧ Inv c s' live' g' ∧ well_used ops' s' live' = true ∧
    Z.of_nat (size live') = Z.of_nat (size live) + count_gets ops - count_rets ops ∧
    (∀ a, a ∈ outs → a ∈ g_issued g') ∧ g_issued g ⊆ g_issued g' ∧
    (length (g_blocks g) ≤ length (g_blocks g'))%nat.
Proof.
  induction ops as [|o ops IH]; intros ops' s live g HI Hw.
  - exists [], s, live, g. split; [reflexivity|]. split; [done|]. split; [done|].
    unfold count_gets, count_rets. simpl. split; [lia|]. split; [set_solver|]. split; [done|lia].
  - rewrite count_gets_cons, count_rets_cons.
    destruct o as [fresh|t]; simpl in Hw; apply andb_true_iff in Hw as [Hw1 Hw2].
    + destruct (get_preserves fresh s live g HI) as (a & s1 & g1 & Hg & Hnl & HI1 & Ha & Hsub & Hlen).
      { intros Hg. by rewrite Hg in Hw1. }
      rewrite Hg in Hw2.
      destruct (IH ops' s1 _ g1 HI1 Hw2) as (outs & s' & live' & g' & He & HI' & Hw' & Hsz & Houts & Hsub' & Hlen').
      exists (a :: outs), s', live', g'. simpl. eff_unfold. rewrite Hg, He.
      split; [reflexivity|]. split; [done|]. split; [done|].
      rewrite size_union, size_singleton in Hsz by set_solver.
      split; [lia|]. split; [|split; [set_solver|lia]].
      intros x [->|Hx]%elem_of_cons; [set_solver|by apply Houts].
    + apply bool_decide_eq_true in Hw1. destruct s as [p m].
      destruct (ret_preserves p m live g t HI Hw1) as [Hnz HI1].
      rewrite (ret_eq t p m Hnz) in Hw2.
      destruct (IH ops' _ _ _ HI1 Hw2) as (outs & s' & live' & g' & He & HI' & Hw' & Hsz & Houts & Hsub' & Hlen').
      exists outs, s', live', g'. simpl. eff_unfold. rewrite (ret_eq t p m Hnz), He.
      split; [reflexivity|]. split; [done|]. split; [done|].
      rewrite size_difference, size_singleton in Hsz by set_solver.
      assert (size live ≠ 0%nat) by (apply size_non_empty_iff; set_solver).
      split; [lia|]. split; [done|]. split; [done|]. done.
Qed.

End PoolInvariantProofs.

Section PoolLife.
Import Pool.
Context `{Layout}.

Lemma slots_pos cnt : 0 < slots cnt.
Proof. unfold slots. case_decide; lia. Qed.

Lemma init_inv (c : Z) (m : Heap) : Inv c (set_cnt c init, m) ∅ (mkGhost [] ∅ [] 0).
Proof.
  constructor; cbn [fst snd g_blocks g_issued g_free g_left length cnt_ total_cnt_ use_cnt_
                    curr_ last_ free_ set_cnt init chain bump_ok];
    rewrite ?size_empty; try done; try lia;
    try (by constructor); intros; exfalso; eapply not_elem_of_nil; eauto.
Qed.

(** The constructor establishes the invariant, every call keeps it. *)
Lemma life_preserves cnt fresh0 ops ops' m :
  layout_ok (slots cnt) → life_ok cnt fresh0 (ops ++ ops') m = true →
  ∃ outs s live g,
    life cnt fresh0 ops m = Some (outs, s) ∧ Inv (slots cnt) s live g ∧
    well_used ops' s live = true ∧
    Z.of_nat (size live) = count_gets ops - count_rets ops ∧
    (∀ a, a ∈ outs → a ∈ g_issued g).
Proof.
  intros Hlay Hok. pose proof (slots_pos cnt) as Hpos.
  unfold life_ok in Hok. apply andb_true_iff in Hok as [Hm Hw].
  unfold life. unfold mbind at 1, Eff_bind at 1.
  rewrite ctor_eq in *. unfold slots in *.
  destruct (decide (0 < cnt)) as [Hc|Hc].
  - pose proof (new_block_preserves cnt Hc Hlay (set_cnt cnt init) m ∅ _ fresh0
                  (init_inv cnt m) eq_refl Hm) as HI.
    rewrite (block_bytes_eq cnt Hc Hlay) in Hm. apply malloc_ok_spec in Hm as (Hf & _ & _).
    rewrite decide_False in * by (unfold nullptr; lia).
    destruct (run_preserves cnt Hc Hlay ops ops' _ _ _ HI Hw)
      as (outs & s' & live' & g' & He & HI' & Hw' & Hsz & Houts & _ & _).
    exists outs, s', live', g'. rewrite size_empty in Hsz.
    split; [done|]. split; [done|]. split; [done|]. split; [lia|done].
  - destruct (run_preserves 128 ltac:(lia) Hlay ops ops' _ _ _ (init_inv 128 m) Hw)
      as (outs & s' & live' & g' & He & HI' & Hw' & Hsz & Houts & _ & _).
    exists outs, s', live', g'. rewrite size_empty in Hsz.
    split; [done|]. split; [done|]. split; [done|]. split; [lia|done].
Qed.

(** C5: with every [ret] passing a pointer that is out, the counter is
    exactly the number of [get()]s minus the number of [ret()]s, at every
    point of the pool's life: after [ops], and again after [ops'] more. *)
Theorem use_cnt_exact (cnt : Z) (fresh0 : ptr) (m : Heap) (ops ops' : list Op) :
  layout_ok (slots cnt) → life_ok cnt fresh0 (ops ++ ops') m = true →
  ∃ outs s outs' s',
    life cnt fresh0 ops m = Some (outs, s) ∧ exec ops' s = Some (outs', s') ∧
    count_rets ops ≤ count_gets ops ∧
    use_cnt s.1 = Some (count_gets ops - count_rets ops, s.1) ∧
    use_cnt s'.1 = Some (use_cnt_ s.1 + count_gets ops' - count_rets ops', s'.1).
Proof.
  intros Hlay Hok. pose proof (slots_pos cnt) as Hpos.
  destruct (life_preserves cnt fresh0 ops ops' m Hlay Hok)
    as (outs & s & live & g & Hl & HI & Hw & Hsz & _).
  rewrite <- (app_nil_r ops') in Hw.
  destruct (run_preserves (slots cnt) Hpos Hlay ops' [] _ _ _ HI Hw)
    as (outs' & s' & live' & g' & He & HI' & _ & Hsz' & _).
  exists outs, s, outs', s'. split; [done|]. split; [done|].
  pose proof (inv_use _ _ _ _ HI) as Hu. pose proof (inv_use _ _ _ _ HI') as Hu'.
  split; [lia|]. unfold use_cnt, gets. split; do 2 f_equal; lia.
Qed.

(** C7: [total_cnt_] never goes down, it is the slot count times the number
    of blocks, and it bounds the number of distinct addresses [get] has
    returned. *)
Theorem total_cnt_bounds_slots (cnt : Z) (fresh0 : ptr) (m : Heap) (ops ops' : list Op) :
  layout_ok (slots cnt) → life_ok cnt fresh0 (ops ++ ops') m = true →
  ∃ outs s outs' s',
    life cnt fresh0 ops m = Some (outs, s) ∧ exec ops' s = Some (outs', s') ∧
    total_cnt_ s.1 ≤ total_cnt_ s'.1 ∧
    (∃ k : nat, total_cnt s'.1 = Some (slots cnt * Z.of_nat k, s'.1)) ∧
    Z.of_nat (size (list_to_set (outs ++ outs') : gset Z)) ≤ total_cnt_ s'.1.
Proof.
  intros Hlay Hok. pose proof (slots_pos cnt) as Hpos.
  destruct (life_preserves cnt fresh0 ops ops' m Hlay Hok)
    as (outs & s & live & g & Hl & HI & Hw & Hsz & Houts).
  rewrite <- (app_nil_r ops') in Hw.
  destruct (run_preserves (slots cnt) Hpos Hlay ops' [] _ _ _ HI Hw)
    as (outs' & s' & live' & g' & He & HI' & _ & Hsz' & Houts' & Hsub & Hlen).
  exists outs, s, outs', s'. split; [done|]. split; [done|].
  pose proof (inv_total _ _ _ _ HI) as Ht. pose proof (inv_total _ _ _ _ HI') as Ht'.
  pose proof (inv_bounds _ Hpos Hlay _ _ _ HI') as (_ & Hb2 & _).
  split; [|split].
  - rewrite Ht, Ht'. apply Z.mul_le_mono_nonneg_l; lia.
  - exists (length (g_blocks g')). unfold total_cnt, gets. by rewrite Ht'.
  - rewrite Ht'. etrans; [|exact Hb2]. apply inj_le, subseteq_size.
    intros a Ha. apply elem_of_list_to_set, elem_of_app in Ha as [Ha|Ha].
    + apply Hsub. by apply Houts.
    + by apply Houts'.
Qed.

End PoolLife.

(** * Concrete runs

    Each property above that has a premise, used on one concrete pool or
    registry, with 16-byte slots and 8-byte block headers. *)

Lemma get_behaviour_witness :
  let p := Pool.mkPool 1040 1072 1008 1000 4 4 1 in
  let m := mkHeap {[1008 := 0]} {[1000 := 0]} [(1000, 72)] in
  @Pool.get layout16 0 (p, m) =
    Some (1008, (Pool.set_free 0 (Pool.set_use_cnt 2 p), m)) ∧
  (∃ p' m', @Pool.get layout16 2000 (Pool.init, empty_Heap) = Some (2008, (p', m')) ∧
            Pool.total_cnt_ p' = 128 ∧ Pool.curr_ p' = 2024 ∧ Pool.last_ p' = 4056) ∧
  @Pool.get layout16 0 (Pool.set_free 0 p, m) =
    Some (1040, (Pool.set_curr 1056 (Pool.set_use_cnt 2 (Pool.set_free 0 p)), m)).
Proof.
  intros p m. split; [|split].
  - destruct (@get_behaviour layout16 0 p m) as (H1 & _).
    apply (H1 0); [done|reflexivity].
  - destruct (@get_behaviour layout16 2000 Pool.init empty_Heap) as (_ & H2 & _).
    destruct H2 as (p' & m' & Hg & _ & _ & _ & Hc & Hl & Ht & _); [reflexivity|done|done|].
    exists p', m'. split; [exact Hg|]. rewrite Ht, Hc, Hl. repeat split.
  - destruct (@get_behaviour layout16 0 (Pool.set_free 0 p) m) as (_ & _ & H3 & _).
    apply H3; [reflexivity|done].
Defined.

Lemma channel_created_deleted_witness :
  let quiet := Channel.mkChannel {[1%nat := {[100]}]} nullptr in
  let watched := Channel.mkChannel {[1%nat := {[100]}]} 4096 in
  Channel.created 1%nat 200 (quiet, @nil Call) =
    Some (tt, (Channel.mkChannel
                 (<[1%nat := {[200]} ∪ at_key (Channel.pools_ quiet) 1%nat]> (Channel.pools_ quiet))
                 nullptr, [])) ∧
  Channel.created 2%nat 300 (watched, @nil Call) =
    Some (tt, (watched, deliver (Created 2%nat 300 :: buffered (Channel.pools_ watched)) [])) ∧
  Channel.deleted 1%nat 100 (watched, @nil Call) =
    Some (tt, (watched, deliver (Deleted 1%nat 100 :: buffered (Channel.pools_ watched)) [])).
Proof.
  intros quiet watched. split; [|split].
  - destruct (channel_created_deleted 1%nat 200 quiet (@nil Call)) as (H1 & _).
    destruct H1 as [Hc _]; [reflexivity|exact Hc].
  - destruct (channel_created_deleted 2%nat 300 watched (@nil Call)) as (_ & H2 & _).
    destruct H2 as [Hc _]; [done|exact Hc].
  - destruct (channel_created_deleted 1%nat 100 watched (@nil Call)) as (_ & H2 & _).
    destruct H2 as [_ Hd]; [done|exact Hd].
Defined.

Lemma set_replays_live_witness :
  ∃ c burst,
    (for_each [Construct 1%nat 100; Construct 1%nat 200; Destroy 1%nat 100] announce;;
     Channel.set 4096) (Channel.init, @nil Call) = Some (tt, (c, [] ++ burst)) ∧
    NoDup burst ∧
    ∀ call, call ∈ burst ↔
      ∃ t p, call = Created t p ∧
             is_live [Construct 1%nat 100; Construct 1%nat 200; Destroy 1%nat 100] t p false = true.
Proof.
  apply (set_replays_live [Construct 1%nat 100; Construct 1%nat 200; Destroy 1%nat 100] 4096 []).
  done.
Defined.

Lemma ret_get_lifo_witness :
  let p := Pool.mkPool 1072 1072 0 1000 4 4 4 in
  let m := mkHeap ∅ {[1000 := 0]} [(1000, 72)] in
  (@Pool.ret 1024;; @Pool.get layout16 0) (p, m) =
    Some (1024, (p, mkHeap (<[1024 := 0]> ∅) {[1000 := 0]} [(1000, 72)])) ∧
  ∃ m', @exec layout16 (map Ret [1008; 1024; 1040; 1056] ++ map Get [0; 0; 0; 0]) (p, m) =
          Some ([1056; 1040; 1024; 1008], (p, m')) ∧
        block_next m' = block_next m ∧ allocated m' = allocated m.
Proof.
  intros p m.
  assert (Hp : @counters_ok p) by (split; split; done).
  destruct (@ret_get_lifo layout16 p m Hp) as [H1 H2]. split.
  - apply (H1 1024 0). done.
  - apply (H2 [1008; 1024; 1040; 1056] [0; 0; 0; 0]).
    + exact (bool_decide_unpack (NoDup [1008; 1024; 1040; 1056]) I).
    + repeat constructor; done.
    + reflexivity.
Defined.

Lemma layout16_ok_2 : @layout_ok layout16 (slots 2).
Proof. split; [|split]; vm_compute; first [reflexivity | intros; discriminate]. Qed.

Lemma use_cnt_exact_witness :
  ∃ outs s outs' s',
    @life layout16 2 1000 [Get 0; Get 0; Get 2000; Ret 1008] empty_Heap = Some (outs, s) ∧
    @exec layout16 [Get 0; Ret 1024] s = Some (outs', s') ∧
    count_rets [Get 0; Get 0; Get 2000; Ret 1008] ≤ count_gets [Get 0; Get 0; Get 2000; Ret 1008] ∧
    Pool.use_cnt s.1 =
      Some (count_gets [Get 0; Get 0; Get 2000; Ret 1008]
            - count_rets [Get 0; Get 0; Get 2000; Ret 1008], s.1) ∧
    Pool.use_cnt s'.1 =
      Some (Pool.use_cnt_ s.1 + count_gets [Get 0; Ret 1024] - count_rets [Get 0; Ret 1024], s'.1).
Proof.
  apply (@use_cnt_exact layout16 2 1000 empty_Heap
           [Get 0; Get 0; Get 2000; Ret 1008] [Get 0; Ret 1024]).
  - exact layout16_ok_2.
  - vm_compute. reflexivity.
Defined.

Lemma total_cnt_bounds_slots_witness :
  ∃ outs s outs' s',
    @life layout16 2 1000 [Get 0; Get 0; Get 2000; Ret 1008] empty_Heap = Some (outs, s) ∧
    @exec layout16 [Get 0; Get 0; Get 3000] s = Some (outs', s') ∧
    Pool.total_cnt_ s.1 ≤ Pool.total_cnt_ s'.1 ∧
    (∃ k : nat, Pool.total_cnt s'.1 = Some (slots 2 * Z.of_nat k, s'.1)) ∧
    Z.of_nat (size (list_to_set (outs ++ outs') : gset Z)) ≤ Pool.total_cnt_ s'.1.
Proof.
  apply (@total_cnt_bounds_slots layout16 2 1000 empty_Heap
           [Get 0; Get 0; Get 2000; Ret 1008] [Get 0; Get 0; Get 3000]).
  - exact layout16_ok_2.
  - vm_compute. reflexivity.
Defined.

Lemma use_cnt_modular_witness :
  (∃ outs s', @life layout16 2 1000 [Ret 1008; Ret 1024; Get 3000] empty_Heap = Some (outs, s') ∧
     Pool.use_cnt s'.1 =
       Some (wrap64 (count_gets [Ret 1008; Ret 1024; Get 3000]
                     - count_rets [Ret 1008; Ret 1024; Get 3000]), s'.1)) ∧
  (∃ s', @Pool.ret 1008 (Pool.init, empty_Heap) = Some (tt, s') ∧
         Pool.use_cnt s'.1 = Some (2 ^ 64 - 1, s'.1)).
Proof.
  destruct (@use_cnt_modular layout16 2 1000 empty_Heap [Ret 1008; Ret 1024; Get 3000])
    as [H1 H2].
  - intros _. done.
  - repeat constructor; done.
  - split; [exact H1|]. apply (H2 Pool.init empty_Heap 1008); [done|reflexivity].
Defined.

Lemma block_size_fixed_witness :
  let layout := λ _ : nat, layout16 in
  let w := mkWorld empty_Heap {[5000 := Pool.init]} Channel.init Monitor.init false in
  (∃ p m', @Pool.ctor layout16 4 1000 (Pool.init, empty_Heap) = Some (tt, (p, m')) ∧
           Pool.cnt_ p = 4 ∧ Pool.total_cnt p = Some (4, p)) ∧
  @Pool.ctor layout16 0 1000 (Pool.init, empty_Heap) = Some (tt, (Pool.init, empty_Heap)) ∧
  (∃ w' p, warm_up_singleton layout (λ _, 5000) 0%nat 4 1000 World_init = Some (tt, w') ∧
           objs w' !! 5000 = Some p ∧ Pool.cnt_ p = slots 4) ∧
  warm_up_singleton layout (λ _, 5000) 0%nat 64 1000 w = Some (tt, w).
Proof.
  intros layout w. split; [|split; [|split]].
  - destruct (block_size_fixed_at_construction layout (λ _, 5000) (λ _, 6000) 0%nat
                4 1000 empty_Heap) as (Ha & _).
    { split; vm_compute; first [reflexivity | intros; discriminate]. }
    destruct Ha as (p & m' & Hc & Hcnt & Htot & _); [done|done|].
    exists p, m'. done.
  - destruct (block_size_fixed_at_construction layout (λ _, 5000) (λ _, 6000) 0%nat
                0 1000 empty_Heap) as (_ & Hb & _).
    { split; vm_compute; first [reflexivity | intros; discriminate]. }
    destruct Hb as (Hc & _); [done|exact Hc].
  - destruct (block_size_fixed_at_construction layout (λ _, 5000) (λ _, 6000) 0%nat
                4 1000 empty_Heap) as (_ & _ & _ & He & _).
    { split; vm_compute; first [reflexivity | intros; discriminate]. }
    apply (He World_init); [reflexivity|done].
  - destruct (block_size_fixed_at_construction layout (λ _, 5000) (λ _, 6000) 0%nat
                0 1000 empty_Heap) as (_ & _ & _ & _ & Hd).
    { split; vm_compute; first [reflexivity | intros; discriminate]. }
    destruct (Hd w 64 1000) as [Hs _]. apply Hs. by eexists.
Defined.

Lemma stat_read_only_witness :
  let mon := Monitor.mkMonitor {[1%nat := {[100; 200]}]} in
  let o : Objs := {[100 := Pool.mkPool 1040 1072 1008 1000 4 4 1; 200 := Pool.init]} in
  Monitor.stat (mon, o) = Some (count_of o <$> Monitor.pools_ mon, (mon, o)).
Proof.
  intros mon o. apply (stat_read_only mon o).
  intros t pool Hin. unfold at_key in Hin. simpl in Hin.
  destruct (decide (t = 1%nat)) as [->|Hne].
  - rewrite lookup_singleton_eq in Hin. simpl in Hin.
    apply elem_of_union in Hin as [Hin|Hin]; apply elem_of_singleton in Hin; subst pool;
      eexists; reflexivity.
  - rewrite lookup_singleton_ne in Hin by done. simpl in Hin. by apply not_elem_of_empty in Hin.
Defined.

(** * Further properties of the slot pool *)

Section PoolFurther.
Import Pool.
Context `{Layout}.
Context (c : Z) (A0 : list (Z * Z)).
Hypothesis Hc : 0 < c.
Hypothesis Hlay : layout_ok c.

Lemma new_block_preserves2 p m live g fresh :
  Inv c (p, m) live g → Inv2 c A0 (p, m) live g → g_left g = 0 →
  malloc_ok fresh (block_bytes c) m = true →
  Inv2 c A0 (grown fresh p, grown_heap fresh p m) live
       (mkGhost (fresh :: g_blocks g) (g_issued g) (g_free g) c).
Proof.
  intros HI HJ Hleft Hm.
  pose proof (new_block_preserves c Hc Hlay p m live g fresh HI Hleft Hm) as HI'.
  pose proof (inv_blocks_nodup _ _ _ _ HI') as Hnd. simpl in Hnd.
  apply NoDup_cons in Hnd as [Hnotin _].
  pose proof (inv_cnt _ _ _ _ HI) as Hcnt. simpl in Hcnt.
  rewrite (block_bytes_eq c Hc Hlay) in Hm. apply malloc_ok_spec in Hm as (Hpos & _ & _).
  constructor; simpl.
  - split; [done|]. split; [unfold nullptr; lia|]. exists (blocks_ p).
    split; [apply lookup_insert_eq|]. apply (chain_insert c Hc Hlay); [done|]. apply HJ.
  - rewrite Hcnt, (block_bytes_eq c Hc Hlay). f_equal. apply HJ.
  - intros x Hx. destruct (inv2_slots _ _ _ _ _ HJ x Hx) as (b & i & Hb & Hi & ->).
    exists b, i. split; [set_solver|done].
  - apply HJ.
Qed.

Lemma bump_preserves2 p m live g :
  Inv c (p, m) live g → Inv2 c A0 (p, m) live g → 0 < g_left g →
  Inv2 c A0 (set_curr (curr_ p + sizeof_Obj) (set_use_cnt (wrap64 (use_cnt_ p + 1)) p), m)
       ({[curr_ p]} ∪ live)
       (mkGhost (g_blocks g) ({[curr_ p]} ∪ g_issued g) (g_free g) (g_left g - 1)).
Proof.
  intros HI HJ Hleft.
  destruct Hlay as (HB & HO & Hfit).
  pose proof (inv_bump _ _ _ _ HI) as Hb. unfold bump_ok in Hb. simpl in Hb.
  pose proof (inv_last _ _ _ _ HI) as Hlast. simpl in Hlast.
  constructor; simpl; try apply HJ.
  - intros x [->%elem_of_singleton|Hx]%elem_of_union; [|by apply HJ].
    destruct (g_blocks g) as [|b bs] eqn:Hbs; [destruct Hb; lia|].
    destruct Hb as (_ & Hlo & Hend & _).
    exists b, (c - g_left g). split; [set_solver|]. split; [|unfold slot_of; lia].
    split; [|lia]. nia.
  - intros x [->%elem_of_singleton|Hx]%elem_of_union; [left; set_solver|].
    destruct (inv2_cover _ _ _ _ _ HJ x Hx); [left; set_solver|by right].
Qed.

Lemma pop_preserves2 p m live g n F :
  Inv2 c A0 (p, m) live g → g_free g = free_ p :: F →
  Inv2 c A0 (set_free n (set_use_cnt (wrap64 (use_cnt_ p + 1)) p), m)
       ({[free_ p]} ∪ live)
       (mkGhost (g_blocks g) (g_issued g) F (g_left g)).
Proof.
  intros HJ HF. constructor; simpl; try apply HJ.
  intros x Hx. destruct (inv2_cover _ _ _ _ _ HJ x Hx) as [?|Hin]; [left; set_solver|].
  rewrite HF in Hin. apply elem_of_cons in Hin as [->|?]; [left; set_solver|by right].
Qed.

Lemma ret_preserves2 p m live g t :
  Inv2 c A0 (p, m) live g →
  Inv2 c A0 (set_free t (set_use_cnt (wrap64 (use_cnt_ p - 1)) p),
             mkHeap (<[t := free_ p]> (obj_next m)) (block_next m) (allocated m))
       (live ∖ {[t]})
       (mkGhost (g_blocks g) (g_issued g) (t :: g_free g) (g_left g)).
Proof.
  intros HJ. constructor; simpl; try apply HJ.
  intros x Hx. destruct (decide (x = t)) as [->|Hne]; [right; set_solver|].
  destruct (inv2_cover _ _ _ _ _ HJ x Hx); [left; set_solver|right; set_solver].
Qed.

Lemma get_preserves2 fresh s live g :
  Inv c s live g → Inv2 c A0 s live g →
  (grows s.1 = true → malloc_ok fresh (block_bytes (cnt_ s.1)) s.2 = true) →
  ∃ a s' g',
    get fresh s = Some (a, s') ∧ (a ∉ live) ∧ a ≠ nullptr ∧
    Inv c s' ({[a]} ∪ live) g' ∧ Inv2 c A0 s' ({[a]} ∪ live) g' ∧
    a ∈ g_issued g' ∧ g_issued g ⊆ g_issued g'.
Proof.
  destruct s as [p m]. intros HI HJ Hmalloc. simpl in Hmalloc.
  rewrite get_eq. cbv zeta.
  pose proof (inv_live _ _ _ _ HI) as Hlive.
  assert (Hnz : ∀ a s' live' g', Inv c s' live' g' → a ∈ g_issued g' → a ≠ nullptr).
  { intros a s' live' g' HI' Ha.
    destruct (inv_issued_in_block c Hc Hlay _ _ _ _ HI' Ha) as (_ & _ & _ & ?).
    unfold nullptr. lia. }
  destruct (decide (free_ p ≠ nullptr)) as [Hf|Hf].
  - destruct (pop_preserves c Hc Hlay p m live g HI Hf) as (n & F & Hn & HF & Hnl & Hiss & HI').
    rewrite Hn. eexists _, _, _. split; [reflexivity|]. split; [done|]. split; [done|].
    split; [exact HI'|]. split; [by apply pop_preserves2|]. simpl. done.
  - assert (free_ p = nullptr) as Hf' by (destruct (decide (free_ p = nullptr)); [done|contradiction]).
    pose proof (inv_last _ _ _ _ HI) as Hlast. simpl in Hlast.
    pose proof (inv_left _ _ _ _ HI) as Hleft.
    pose proof (inv_cnt _ _ _ _ HI) as Hcnt. simpl in Hcnt.
    destruct Hlay as (HB & HO & Hfit).
    destruct (decide (last_ p ≤ curr_ p)) as [Hend|Hend].
    + assert (Hg : grows p = true).
      { unfold grows. rewrite !bool_decide_eq_true_2; done. }
      specialize (Hmalloc Hg). rewrite Hcnt in Hmalloc.
      assert (Hl0 : g_left g = 0) by nia.
      pose proof (new_block_preserves c Hc Hlay p m live g fresh HI Hl0 Hmalloc) as HI1.
      pose proof (new_block_preserves2 p m live g fresh HI HJ Hl0 Hmalloc) as HJ1.
      destruct (bump_preserves c Hc Hlay _ _ _ _ HI1 ltac:(simpl; lia)) as [Hnew HI2].
      pose proof (bump_preserves2 _ _ _ _ HI1 HJ1 ltac:(simpl; lia)) as HJ2.
      rewrite (block_bytes_eq c Hc Hlay) in Hmalloc.
      apply malloc_ok_spec in Hmalloc as (Hpos & _ & _).
      rewrite decide_False by (unfold nullptr; lia).
      eexists _, _, _. split; [reflexivity|]. simpl in *.
      split; [set_solver|]. split; [unfold nullptr; lia|].
      split; [exact HI2|]. split; [exact HJ2|]. simpl. split; set_solver.
    + assert (Hl0 : 0 < g_left g) by nia.
      destruct (bump_preserves c Hc Hlay _ _ _ _ HI Hl0) as [Hnew HI2].
      pose proof (bump_preserves2 _ _ _ _ HI HJ Hl0) as HJ2.
      eexists _, _, _. split; [reflexivity|]. simpl in *.
      split; [set_solver|]. split; [eapply Hnz; [exact HI2|simpl; set_solver]|].
      split; [exact HI2|]. split; [exact HJ2|]. simpl. split; set_solver.
Qed.

Lemma run_preserves2 ops : ∀ ops' s live g,
  Inv c s live g → Inv2 c A0 s live g → well_used (ops ++ ops') s live = true →
  ∃ outs s' g',
    exec ops s = Some (outs, s') ∧
    Inv c s' (live_of ops outs live) g' ∧ Inv2 c A0 s' (live_of ops outs live) g' ∧
    well_used ops' s' (live_of ops outs live) = true ∧
    (∀ a, a ∈ outs → a ∈ g_issued g') ∧ g_issued g ⊆ g_issued g'.
Proof.
  induction ops as [|o ops IH]; intros ops' s live g HI HJ Hw.
  - exists [], s, g. split; [reflexivity|]. simpl. repeat (split; [done|]). split; [|done].
    intros a Ha. by apply elem_of_nil in Ha.
  - destruct o as [fresh|t]; simpl in Hw; apply andb_true_iff in Hw as [Hw1 Hw2].
    + destruct (get_preserves2 fresh s live g HI HJ)
        as (a & s1 & g1 & Hg & Hnl & Hnz & HI1 & HJ1 & Ha & Hsub).
      { intros Hg. by rewrite Hg in Hw1. }
      rewrite Hg in Hw2.
      destruct (IH ops' s1 _ g1 HI1 HJ1 Hw2) as (outs & s' & g' & He & HI' & HJ' & Hw' & Houts & Hsub').
      exists (a :: outs), s', g'. simpl. eff_unfold. rewrite Hg, He.
      split; [reflexivity|]. do 3 (split; [done|]). split; [|set_solver].
      intros x [->|Hx]%elem_of_cons; [set_solver|by apply Houts].
    + apply bool_decide_eq_true in Hw1. destruct s as [p m].
      destruct (ret_preserves c Hc Hlay p m live g t HI Hw1) as [Hnz HI1].
      pose proof (ret_preserves2 p m live g t HJ) as HJ1.
      rewrite (ret_eq t p m Hnz) in Hw2.
      destruct (IH ops' _ _ _ HI1 HJ1 Hw2) as (outs & s' & g' & He & HI' & HJ' & Hw' & Houts & Hsub').
      exists outs, s', g'. simpl. eff_unfold. rewrite (ret_eq t p m Hnz), He.
      split; [reflexivity|]. do 3 (split; [done|]). split; done.
Qed.

End PoolFurther.

Section PoolLifeFurther.
Import Pool.
Context `{Layout}.

Lemma init_inv2 (c : Z) (m : Heap) :
  Inv2 c (allocated m) (set_cnt c init, m) ∅ (mkGhost [] ∅ [] 0).
Proof.
  constructor; simpl; try done; intros x Hx; by apply not_elem_of_empty in Hx.
Qed.

(** The constructor establishes both invariants, every call keeps them. *)
Lemma life_preserves2 cnt fresh0 ops ops' m :
  layout_ok (slots cnt) → life_ok cnt fresh0 (ops ++ ops') m = true →
  ∃ outs s g,
    life cnt fresh0 ops m = Some (outs, s) ∧
    Inv (slots cnt) s (live_of ops outs ∅) g ∧
    Inv2 (slots cnt) (allocated m) s (live_of ops outs ∅) g ∧
    well_used ops' s (live_of ops outs ∅) = true ∧
    (∀ a, a ∈ outs → a ∈ g_issued g).
Proof.
  intros Hlay Hok. pose proof (slots_pos cnt) as Hpos.
  unfold life_ok in Hok. apply andb_true_iff in Hok as [Hm Hw].
  unfold life. unfold mbind at 1, Eff_bind at 1.
  rewrite ctor_eq in *. unfold slots in *.
  destruct (decide (0 < cnt)) as [Hc|Hc].
  - pose proof (new_block_preserves cnt Hc Hlay (set_cnt cnt init) m ∅ _ fresh0
                  (init_inv cnt m) eq_refl Hm) as HI.
    pose proof (new_block_preserves2 cnt (allocated m) Hc Hlay (set_cnt cnt init) m ∅ _ fresh0
                  (init_inv cnt m) (init_inv2 cnt m) eq_refl Hm) as HJ.
    rewrite (block_bytes_eq cnt Hc Hlay) in Hm. apply malloc_ok_spec in Hm as (Hf & _ & _).
    rewrite decide_False in * by (unfold nullptr; lia).
    destruct (run_preserves2 cnt (allocated m) Hc Hlay ops ops' _ _ _ HI HJ Hw)
      as (outs & s' & g' & He & HI' & HJ' & Hw' & Houts & _).
    exists outs, s', g'. done.
  - destruct (run_preserves2 128 (allocated m) ltac:(lia) Hlay ops ops' _ _ _
                (init_inv 128 m) (init_inv2 128 m) Hw)
      as (outs & s' & g' & He & HI' & HJ' & Hw' & Houts & _).
    exists outs, s', g'. done.
Qed.

Lemma life_app cnt fresh0 ops ops' m :
  life cnt fresh0 (ops ++ ops') m =
    match life cnt fresh0 ops m with
    | Some (outs, s) =>
        match exec ops' s with
        | Some (outs', s') => Some (outs ++ outs', s')
        | None => None
        end
    | None => None
    end.
Proof.
  unfold life, mbind, Eff_bind.
  destruct (ctor cnt fresh0 (init, m)) as [[[] s0]|]; [|reflexivity].
  apply exec_app.
Qed.

(** X1: [get()] never hands out a slot that is still in use: the pointer it
    returns is not null and is not among the pointers that are out. *)
Theorem get_returns_unused_slot (cnt : Z) (fresh0 : ptr) (m : Heap) (ops : list Op) (f : ptr) :
  layout_ok (slots cnt) → life_ok cnt fresh0 (ops ++ [Get f]) m = true →
  ∃ outs a s,
    life cnt fresh0 (ops ++ [Get f]) m = Some (outs ++ [a], s) ∧
    a ≠ nullptr ∧ (a ∉ live_of ops outs ∅) ∧
    use_cnt_ s.1 = Z.of_nat (size (live_of ops outs ∅)) + 1.
Proof.
  intros Hlay Hok. pose proof (slots_pos cnt) as Hpos.
  destruct (life_preserves2 cnt fresh0 ops [Get f] m Hlay Hok)
    as (outs & s0 & g & Hl & HI & HJ & Hw & _).
  simpl in Hw. apply andb_true_iff in Hw as [Hw1 _].
  destruct (get_preserves2 (slots cnt) (allocated m) Hpos Hlay f s0 _ g HI HJ)
    as (a & s & g' & Hg & Hnl & Hnz & HI' & _).
  { intros Hg. by rewrite Hg in Hw1. }
  exists outs, a, s. rewrite life_app, Hl. simpl. eff_unfold. rewrite Hg.
  split; [reflexivity|]. split; [done|]. split; [done|].
  rewrite (inv_use _ _ _ _ HI'). rewrite size_union, size_singleton by set_solver. lia.
Qed.

(** X2: every pointer [get()] returns is a slot of a block the pool has
    malloc'ed and still holds, the slot lies inside the block behind its
    header, and two different slots do not overlap. *)
Theorem slots_inside_blocks_and_apart (cnt : Z) (fresh0 : ptr) (m : Heap) (ops : list Op) :
  layout_ok (slots cnt) → life_ok cnt fresh0 ops m = true →
  ∃ outs s own,
    life cnt fresh0 ops m = Some (outs, s) ∧
    allocated s.2 = own ++ allocated m ∧
    (∀ a, a ∈ outs →
       ∃ b i, (b, block_bytes (slots cnt)) ∈ own ∧ 0 ≤ i < slots cnt ∧ a = slot_of b i ∧
              b + sizeof_Block ≤ a ∧ a + sizeof_Obj ≤ b + block_bytes (slots cnt)) ∧
    (∀ a a', a ∈ outs → a' ∈ outs → a = a' ∨ a + sizeof_Obj ≤ a' ∨ a' + sizeof_Obj ≤ a).
Proof.
  intros Hlay Hok. pose proof (slots_pos cnt) as Hpos.
  rewrite <- (app_nil_r ops) in Hok.
  destruct (life_preserves2 cnt fresh0 ops [] m Hlay Hok)
    as (outs & s & g & Hl & HI & HJ & _ & Houts).
  rewrite (block_bytes_eq _ Hpos Hlay).
  exists outs, s, ((λ b, (b, block_size (slots cnt))) <$> g_blocks g).
  split; [done|]. split; [apply HJ|].
  destruct Hlay as (HB & HO & Hfit).
  assert (Hslot : ∀ a, a ∈ outs →
            ∃ b i, b ∈ g_blocks g ∧ 0 ≤ i < slots cnt ∧ a = slot_of b i).
  { intros a Ha. apply (inv2_slots _ _ _ _ _ HJ), Houts, Ha. }
  split.
  - intros a Ha. destruct (Hslot a Ha) as (b & i & Hb & Hi & ->).
    exists b, i. split; [|split; [done|split; [done|]]].
    + apply list_elem_of_fmap. eauto.
    + unfold slot_of, block_size. nia.
  - intros a a' Ha Ha'.
    destruct (Hslot a Ha) as (b & i & Hb & Hi & ->).
    destruct (Hslot a' Ha') as (b' & i' & Hb' & Hi' & ->).
    unfold slot_of. destruct (decide (b = b')) as [->|Hne].
    + destruct (Z.lt_trichotomy i i') as [?|[->|?]]; [right; left; nia|by left|right; right; nia].
    + destruct (inv_blocks_disj _ _ _ _ HI b b' Hb Hb' Hne) as [Hd|Hd];
        unfold block_size in Hd; [right; left; nia|right; right; nia].
Qed.

(** X4: the slots in use never outnumber the slots allocated, and the next
    [get()] calls malloc exactly when every slot of every block is in use. *)
Theorem grows_only_when_full (cnt : Z) (fresh0 : ptr) (m : Heap) (ops : list Op) :
  layout_ok (slots cnt) → life_ok cnt fresh0 ops m = true →
  ∃ outs s,
    life cnt fresh0 ops m = Some (outs, s) ∧
    use_cnt_ s.1 ≤ total_cnt_ s.1 ∧
    (grows s.1 = true ↔ use_cnt_ s.1 = total_cnt_ s.1).
Proof.
  intros Hlay Hok. pose proof (slots_pos cnt) as Hpos.
  rewrite <- (app_nil_r ops) in Hok.
  destruct (life_preserves2 cnt fresh0 ops [] m Hlay Hok)
    as (outs & s & g & Hl & HI & HJ & _ & _).
  exists outs, s. split; [done|].
  pose proof (inv_bounds _ Hpos Hlay _ _ _ HI) as (Hb1 & Hb2 & _).
  pose proof (inv_use _ _ _ _ HI) as Hu. pose proof (inv_total _ _ _ _ HI) as Ht.
  pose proof (inv_count _ _ _ _ HI) as Hcount. pose proof (inv_left _ _ _ _ HI) as Hleft.
  pose proof (inv_last _ _ _ _ HI) as Hlast. pose proof (inv_chain _ _ _ _ HI) as Hch.
  pose proof (inv_live _ _ _ _ HI) as Hlive.
  destruct Hlay as (HB & HO & Hfit).
  split; [lia|]. unfold grows. split.
  - intros [Hf Hend]%andb_true_iff.
    apply bool_decide_eq_true in Hf. apply bool_decide_eq_true in Hend.
    assert (HF : g_free g = []).
    { destruct (g_free g) as [|a F]; [done|]. simpl in Hch. destruct Hch as (Ha & Hnz & _).
      congruence. }
    assert (Hl0 : g_left g = 0) by nia.
    assert (Heq : g_issued g ⊆ live_of ops outs ∅).
    { intros x Hx. destruct (inv2_cover _ _ _ _ _ HJ x Hx) as [?|Hin]; [done|].
      rewrite HF in Hin. by apply elem_of_nil in Hin. }
    apply subseteq_size in Heq. lia.
  - intros Heq.
    assert (Hl0 : g_left g = 0) by lia.
    assert (Hsz : (size (g_issued g) ≤ size (live_of ops outs ∅))%nat) by lia.
    pose proof (set_subseteq_size_eq _ _ Hlive Hsz) as Hsame.
    assert (HF : g_free g = []).
    { destruct (g_free g) as [|a F] eqn:HF; [done|].
      destruct (inv_free _ _ _ _ HI a) as [Hai Hal]; [rewrite HF; set_solver|].
      exfalso. set_solver. }
    rewrite HF in Hch. simpl in Hch.
    apply andb_true_iff. split; apply bool_decide_eq_true; [done|]. rewrite Hlast, Hl0. lia.
Qed.



Lemma chain_delete (next : gmap Z Z) (b : Z) (F : list Z) : ∀ h,
  b ∉ F → chain next h F → chain (delete b next) h F.
Proof.
  induction F as [|a F IH]; intros h Hnotin Hch; simpl in *; [done|].
  destruct Hch as (-> & Hnz & n & Hn & Hch).
  split; [done|]. split; [done|]. exists n. split.
  - rewrite lookup_delete_ne; [done|]. set_solver.
  - apply IH; [set_solver|done].
Qed.

Lemma free_blocks_chain (sz : Z) (bs : list Z) : ∀ (next : gmap Z Z) head on A0 fuel,
  NoDup bs → chain next head bs → (length bs ≤ fuel)%nat →
  ∃ next',
    free_blocks fuel head (mkHeap on next (((λ b, (b, sz)) <$> bs) ++ A0)) =
      Some (mkHeap on next' A0) ∧
    ∀ b, next' !! b = if decide (b ∈ bs) then None else next !! b.
Proof.
  induction bs as [|b bs IH]; intros next head on A0 fuel Hnd Hch Hfuel; simpl in Hch.
  - subst head. exists next. split; [by destruct fuel|].
    intros b. rewrite decide_False; [done|]. apply not_elem_of_nil.
  - destruct Hch as (-> & Hnz & n & Hn & Hch).
    apply NoDup_cons in Hnd as [Hnotin Hnd].
    destruct fuel as [|fuel]; [simpl in Hfuel; lia|].
    assert (Hfuel' : (length bs ≤ fuel)%nat) by (simpl in Hfuel; lia).
    destruct (IH (delete b next) n on A0 fuel Hnd (chain_delete _ _ _ _ Hnotin Hch) Hfuel')
      as (next' & Hfree & Hnext').
    exists next'. split.
    + cbn [free_blocks]. rewrite decide_False by done. cbn [block_next]. rewrite Hn.
      cbn [mbind option_bind]. unfold free. cbn [allocated fmap list_fmap app remove_block fst].
      rewrite decide_True by done. cbn [mbind option_bind obj_next block_next]. exact Hfree.
    + intros b'. rewrite Hnext'. destruct (decide (b' = b)) as [->|Hne].
      * rewrite (decide_True (P := b ∈ b :: bs)) by set_solver.
        rewrite (decide_False (P := b ∈ bs)) by done. apply lookup_delete_eq.
      * rewrite lookup_delete_ne by done.
        destruct (decide (b' ∈ bs)) as [Hin|Hin].
        -- rewrite (decide_True (P := b' ∈ b :: bs)) by set_solver. done.
        -- rewrite (decide_False (P := b' ∈ b :: bs)) by set_solver. done.
Qed.

(** X5: the loop of the destructor frees every block the pool has malloc'ed
    and nothing else: it terminates without a bad [free], and the allocator
    then holds exactly the blocks it held before the pool was constructed. *)
Theorem destructor_frees_every_block (cnt : Z) (fresh0 : ptr) (m : Heap) (ops : list Op) :
  layout_ok (slots cnt) → life_ok cnt fresh0 ops m = true →
  ∃ outs s h',
    life cnt fresh0 ops m = Some (outs, s) ∧
    free_blocks (length (allocated s.2)) (blocks_ s.1) s.2 = Some h' ∧
    allocated h' = allocated m ∧ obj_next h' = obj_next s.2 ∧
    (∀ b sz, (b, sz) ∈ allocated s.2 → (b, sz) ∈ allocated m ∨ block_next h' !! b = None).
Proof.
  intros Hlay Hok. rewrite <- (app_nil_r ops) in Hok.
  destruct (life_preserves2 cnt fresh0 ops [] m Hlay Hok)
    as (outs & [p h] & g & Hl & HI & HJ & _ & _).
  pose proof (inv2_blocks _ _ _ _ _ HJ) as Hch. pose proof (inv2_alloc _ _ _ _ _ HJ) as Hal.
  pose proof (inv_blocks_nodup _ _ _ _ HI) as Hnd.
  destruct h as [on bn al]. simpl in *. subst al.
  destruct (free_blocks_chain (block_size (slots cnt)) (g_blocks g) bn (blocks_ p) on
              (allocated m) (length (((λ b, (b, block_size (slots cnt))) <$> g_blocks g)
                                      ++ allocated m)) Hnd Hch)
    as (next' & Hfree & Hnext').
  { rewrite length_app, length_fmap. lia. }
  exists outs, (p, mkHeap on bn (((λ b, (b, block_size (slots cnt))) <$> g_blocks g)
                                 ++ allocated m)), (mkHeap on next' (allocated m)).
  split; [done|]. split; [exact Hfree|]. split; [done|]. split; [done|].
  intros b sz [Hin|Hin]%elem_of_app; [right|by left].
  apply list_elem_of_fmap in Hin as (b' & Heq & Hb'). simplify_eq.
  simpl. rewrite Hnext'. by rewrite decide_True.
Qed.

(** X6: when the free list is not empty, [get()] followed by [ret] of the
    pointer it returned leaves the pool and the heap exactly as they were. *)
Theorem get_ret_restores (f : ptr) (p : Pool) (m : Heap) :
  counters_ok p → free_ p ≠ nullptr → is_Some (obj_next m !! free_ p) →
  (a ← get f; ret a;; mret a) (p, m) = Some (free_ p, (p, m)).
Proof.
  intros [_ Hu] Hf [n Hn]. unfold mbind, Eff_bind.
  rewrite (get_pop f p m n Hf Hn). rewrite ret_eq by done.
  unfold mret, Eff_ret. do 2 f_equal. f_equal.
  - destruct p. unfold set_free, set_use_cnt. simpl in *. f_equal.
    replace (wrap64 (use_cnt_0 + 1) - 1) with (wrap64 (use_cnt_0 + 1) + -1) by lia.
    rewrite wrap64_idemp_l. replace (use_cnt_0 + 1 + -1) with use_cnt_0 by lia.
    by apply wrap64_small.
  - destruct m. simpl in *. f_equal. by apply insert_id.
Qed.

End PoolLifeFurther.

(** * Further properties of the registry *)

Section MonitorFurther.
Import Monitor.

Lemma created_no_empty (t : nat) (p : Z) (m : Monitor) :
  no_empty_type m → no_empty_type (created t p m).
Proof.
  intros Hm t'. unfold created. simpl. destruct (decide (t = t')) as [->|Hne].
  - rewrite lookup_insert_eq. intros [= Heq]. set_solver.
  - rewrite lookup_insert_ne by done. apply Hm.
Qed.

Lemma deleted_no_empty (t : nat) (p : Z) (m : Monitor) :
  no_empty_type m → no_empty_type (deleted t p m).
Proof.
  intros Hm t'. unfold deleted. case_decide as He; simpl.
  - destruct (decide (t = t')) as [->|Hne].
    + by rewrite lookup_delete_eq.
    + rewrite lookup_delete_ne by done. apply Hm.
  - destruct (decide (t = t')) as [->|Hne].
    + rewrite lookup_insert_eq. by intros [= Heq].
    + rewrite lookup_insert_ne by done. apply Hm.
Qed.

Lemma deliver_no_empty (cs : list Call) : ∀ m : Monitor,
  no_empty_type m → no_empty_type (deliver cs m).
Proof.
  induction cs as [|call cs IH]; intros m Hm; [done|].
  destruct call as [t p|t p].
  - change (deliver (Created t p :: cs) m) with (deliver cs (created t p m)).
    by apply IH, created_no_empty.
  - change (deliver (Deleted t p :: cs) m) with (deliver cs (deleted t p m)).
    by apply IH, deleted_no_empty.
Qed.

(** X7: whatever calls it receives, the Monitor never keeps a type whose set
    of pools is empty: a type is listed exactly when a pool of it is. *)
Theorem monitor_lists_no_empty_type (cs : list Call) (t : nat) :
  pools_ (deliver cs init) !! t ≠ Some ∅ ∧
  (is_Some (pools_ (deliver cs init) !! t) ↔ ∃ p, p ∈ at_key (pools_ (deliver cs init)) t).
Proof.
  assert (Hne : no_empty_type (deliver cs init)).
  { apply deliver_no_empty. intros t'. simpl. by rewrite lookup_empty. }
  split; [apply Hne|]. unfold at_key. split.
  - intros [set Hs]. rewrite Hs. simpl.
    destruct (set_choose_or_empty set) as [[p Hp]|Hemp]; [eauto|].
    apply leibniz_equiv in Hemp. subst set. by destruct (Hne t).
  - intros [p Hp]. destruct (pools_ (deliver cs init) !! t); [eauto|]. set_solver.
Qed.

Lemma created_listed (t : nat) (p : Z) (m : Monitor) :
  p ∈ at_key (pools_ m) t → created t p m = m.
Proof.
  intros Hp. unfold created, at_key in *. destruct m as [ps]. simpl in *. f_equal.
  destruct (ps !! t) as [set|] eqn:Hs; simpl in *; [|set_solver].
  rewrite insert_id; [done|]. rewrite Hs. f_equal. set_solver.
Qed.

Lemma deliver_listed (cs : list Call) (m : Monitor) :
  (∀ call, call ∈ cs → ∃ t p, call = Created t p ∧ p ∈ at_key (pools_ m) t) →
  deliver cs m = m.
Proof.
  induction cs as [|call cs IH]; intros Hall; [done|].
  destruct (Hall call) as (t & p & -> & Hp); [set_solver|].
  change (deliver (Created t p :: cs) m) with (deliver cs (created t p m)).
  rewrite created_listed by done. apply IH. intros call Hc. apply Hall. set_solver.
Qed.

(** X8: once every buffered pool is listed by the Monitor (as it is after
    the Monitor attached), the replay that follows a forwarded [created]
    changes nothing: the Monitor ends as after [Monitor::created] alone, and
    still lists every buffered pool. *)
Theorem replay_is_absorbed (t : nat) (p : Z) (c : Channel.Channel) (m : Monitor) :
  Channel.mon_ c ≠ nullptr → buffer_listed c m →
  Channel.created t p (c, m) = Some (tt, (c, created t p m)) ∧
  buffer_listed c (created t p m).
Proof.
  intros Hm Hb.
  assert (Hb' : buffer_listed c (created t p m)).
  { intros t' p' Hp'. apply monitor_created_elem. right. by apply Hb. }
  split; [|done]. rewrite created_eq. rewrite decide_True by done.
  change (deliver (Created t p :: buffered (Channel.pools_ c)) m)
    with (deliver (buffered (Channel.pools_ c)) (created t p m)).
  rewrite deliver_listed; [done|].
  intros call (t' & p' & -> & Hp')%elem_of_buffered. exists t', p'. split; [done|]. by apply Hb'.
Qed.

Lemma is_live_app (evs1 evs2 : list Event) (t : nat) (p : Z) : ∀ b,
  is_live (evs1 ++ evs2) t p b = is_live evs2 t p (is_live evs1 t p b).
Proof.
  induction evs1 as [|e evs1 IH]; intros b; [done|]. destruct e; simpl; apply IH.
Qed.

Lemma is_live_true (evs : list Event) (t : nat) (p : Z) (P : Prop) `{Decision P} (b : bool) :
  (P ↔ b = true) → is_live evs t p (bool_decide P) = is_live evs t p b.
Proof.
  intros HP. f_equal. destruct b.
  - apply bool_decide_eq_true. by apply HP.
  - apply bool_decide_eq_false. intros HP'. by apply HP in HP'.
Qed.

(** Events announced while the Monitor is attached: the channel stays as it
    is, and the Monitor lists the buffered pools and the pools alive. *)
Lemma observed_events (evs : list Event) : ∀ (c : Channel.Channel) (m : Monitor),
  Channel.mon_ c ≠ nullptr → buffer_listed c m →
  ∃ m', for_each evs announce (c, m) = Some (tt, (c, m')) ∧
        ∀ t p, p ∈ at_key (pools_ m') t ↔
               p ∈ at_key (Channel.pools_ c) t ∨
               is_live evs t p (bool_decide (p ∈ at_key (pools_ m) t)) = true.
Proof.
  induction evs as [|e evs IH]; intros c m Hm Hb.
  - exists m. split; [reflexivity|]. intros t p. simpl. rewrite bool_decide_eq_true.
    split; [by right|]. intros [?|?]; [by apply Hb|done].
  - simpl. unfold mbind, Eff_bind.
    assert (Hstep : ∀ m1 (b1 : nat → Z → bool),
      buffer_listed c m1 →
      (∀ t p, p ∉ at_key (Channel.pools_ c) t →
              (p ∈ at_key (pools_ m1) t ↔ b1 t p = true)) →
      ∃ m', for_each evs announce (c, m1) = Some (tt, (c, m')) ∧
            ∀ t p, p ∈ at_key (pools_ m') t ↔
                   p ∈ at_key (Channel.pools_ c) t ∨ is_live evs t p (b1 t p) = true).
    { intros m1 b1 Hb1 Hm1. destruct (IH c m1 Hm Hb1) as (m' & He & Hl).
      exists m'. split; [done|]. intros t p. rewrite Hl.
      destruct (decide (p ∈ at_key (Channel.pools_ c) t)) as [Hin|Hnin]; [tauto|].
      rewrite (is_live_true evs t p _ (b1 t p) (Hm1 t p Hnin)). done. }
    destruct e as [t0 p0|t0 p0]; simpl.
    + rewrite created_eq. rewrite decide_True by done.
      change (deliver (Created t0 p0 :: buffered (Channel.pools_ c)) m)
        with (deliver (buffered (Channel.pools_ c)) (created t0 p0 m)).
      apply (Hstep _ (λ t p, if decide (t0 = t ∧ p0 = p) then true
                             else bool_decide (p ∈ at_key (pools_ m) t))).
      * intros t p Hp. apply monitor_replay_elem; [apply buffered_all_created|].
        left. apply elem_of_buffered. eauto.
      * intros t p Hnin. rewrite monitor_replay_elem by apply buffered_all_created.
        rewrite elem_of_buffered, monitor_created_elem.
        case_decide as Hd; [|rewrite bool_decide_eq_true]; split; try done.
        -- intros _. right. left. done.
        -- intros [(t' & p' & ? & ?)|[?|?]]; simplify_eq; done.
        -- intros ?. right. by right.
    + rewrite deleted_eq. rewrite decide_True by done.
      change (deliver (Deleted t0 p0 :: buffered (Channel.pools_ c)) m)
        with (deliver (buffered (Channel.pools_ c)) (deleted t0 p0 m)).
      apply (Hstep _ (λ t p, if decide (t0 = t ∧ p0 = p) then false
                             else bool_decide (p ∈ at_key (pools_ m) t))).
      * intros t p Hp. apply monitor_replay_elem; [apply buffered_all_created|].
        left. apply elem_of_buffered. eauto.
      * intros t p Hnin. rewrite monitor_replay_elem by apply buffered_all_created.
        rewrite elem_of_buffered, monitor_deleted_elem.
        case_decide as Hd; [|rewrite bool_decide_eq_true]; split; try done.
        -- intros [(t' & p' & ? & ?)|[? ?]]; simplify_eq; done.
        -- intros [(t' & p' & ? & ?)|[? ?]]; simplify_eq; done.
        -- intros ?. right. done.
Qed.

(** X9: what the Monitor lists, whenever it attaches.  Pools are constructed
    and destroyed ([evs1]), the Monitor attaches, more pools are constructed
    and destroyed ([evs2]).  The channel's buffer stays what it was when the
    Monitor attached, and the Monitor lists exactly the pools that were
    alive at that moment together with the pools that are alive now. *)
Theorem monitor_lists_buffered_and_live (evs1 evs2 : list Event) (mon : ptr) :
  mon ≠ nullptr →
  ∃ c m,
    (for_each evs1 announce;; Channel.set mon;; for_each evs2 announce)
      (Channel.init, init) = Some (tt, (c, m)) ∧
    (∀ t p, p ∈ at_key (Channel.pools_ c) t ↔ is_live evs1 t p false = true) ∧
    (∀ t p, p ∈ at_key (pools_ m) t ↔
            is_live evs1 t p false = true ∨ is_live (evs1 ++ evs2) t p false = true).
Proof.
  intros Hmon.
  destruct (unobserved_events evs1 Channel.init init eq_refl) as (c1 & He1 & Hm1 & Hl1).
  assert (Hinit : ∀ t p, p ∉ at_key (Channel.pools_ Channel.init) t).
  { intros t p. unfold at_key. simpl. rewrite lookup_empty. simpl. set_solver. }
  assert (Hbuf : ∀ t p, p ∈ at_key (Channel.pools_ c1) t ↔ is_live evs1 t p false = true).
  { intros t p. rewrite Hl1. by rewrite (bool_decide_eq_false_2 _ (Hinit t p)). }
  set (c := Channel.mkChannel (Channel.pools_ c1) mon).
  set (m1 := deliver (buffered (Channel.pools_ c1)) init).
  assert (Hlist : ∀ t p, p ∈ at_key (pools_ m1) t ↔ is_live evs1 t p false = true).
  { intros t p. unfold m1. rewrite monitor_replay_elem by apply buffered_all_created.
    rewrite elem_of_buffered, <- Hbuf. split.
    - intros [(t' & p' & Heq & Hin)|Hin].
      + by simplify_eq.
      + unfold at_key in Hin. simpl in Hin. rewrite lookup_empty in Hin. set_solver.
    - intros ?. left. eauto. }
  destruct (observed_events evs2 c m1) as (m' & He2 & Hl2); [done| |].
  { intros t p Hp. apply Hlist. by apply Hbuf. }
  exists c, m'. split; [|split; [done|]].
  - unfold mbind, Eff_bind. rewrite He1, set_eq. rewrite decide_False by done.
    fold c m1. exact He2.
  - intros t p. rewrite Hl2. change (Channel.pools_ c) with (Channel.pools_ c1).
    rewrite Hbuf, is_live_app.
    rewrite (is_live_true evs2 t p _ (is_live evs1 t p false) (Hlist t p)). done.
Qed.

Lemma stat_eq (mon : Monitor) (o : Objs) :
  (∀ t pool, pool ∈ at_key (pools_ mon) t → is_Some (o !! pool)) →
  stat (mon, o) = Some (count_of o <$> pools_ mon, (mon, o)).
Proof.
  intros Halive. unfold stat. unfold mbind at 1, Eff_bind at 1, gets at 1. cbn [fst].
  rewrite stat_outer.
  - rewrite list_to_map_to_list. by rewrite (right_id_L ∅ (∪)).
  - apply NoDup_fst_map_to_list.
  - apply Forall_forall. intros [t set] Hin pool Hp. simpl in Hp.
    apply elem_of_map_to_list in Hin. apply (Halive t). unfold at_key. by rewrite Hin.
Qed.

(** X10: a row of [stat] stands for at least one pool: whatever calls the
    Monitor has received, [stat] reports the types the Monitor lists, each
    with a pool count of at least one and 64-bit totals; with no pool ever
    announced the result is empty. *)
Theorem stat_rows_have_pools (cs : list Call) (o : Objs) :
  (∀ t pool, pool ∈ at_key (pools_ (deliver cs init)) t → is_Some (o !! pool)) →
  ∃ st,
    stat (deliver cs init, o) = Some (st, (deliver cs init, o)) ∧
    dom st = dom (pools_ (deliver cs init)) ∧
    (∀ t cnt, st !! t = Some cnt →
       1 ≤ pool_ cnt ∧ 0 ≤ total_ cnt < 2 ^ 64 ∧ 0 ≤ use_ cnt < 2 ^ 64) ∧
    stat (init, o) = Some (∅, (init, o)).
Proof.
  intros Halive. exists (count_of o <$> pools_ (deliver cs init)).
  split; [by apply stat_eq|]. split; [apply dom_fmap_L|]. split.
  - intros t cnt Hst. rewrite lookup_fmap in Hst.
    destruct (pools_ (deliver cs init) !! t) as [set|] eqn:Hs; [|done].
    simpl in Hst. simplify_eq. unfold count_of. simpl.
    split; [|split; apply wrap64_range].
    assert (Hne : no_empty_type (deliver cs init)).
    { apply deliver_no_empty. intros t'. simpl. by rewrite lookup_empty. }
    assert (size set ≠ 0%nat); [|lia].
    intros Hz. apply size_empty_inv in Hz. apply leibniz_equiv in Hz. subst set.
    by destruct (Hne t).
  - rewrite stat_eq.
    + simpl. by rewrite fmap_empty.
    + intros t pool Hin. unfold at_key in Hin. simpl in Hin. rewrite lookup_empty in Hin.
      set_solver.
Qed.

End MonitorFurther.

(** * Destroyed pools and the diagnostics query *)

Section DestroyedPools.
Import Monitor.

Lemma announce_no_empty (evs : list Event) : ∀ (c c' : Channel.Channel) (m m' : Monitor),
  for_each evs announce (c, m) = Some (tt, (c', m')) → no_empty_type m → no_empty_type m'.
Proof.
  induction evs as [|e evs IH]; intros c c' m m' Hrun Hm.
  - simpl in Hrun. unfold mret, Eff_ret in Hrun. by simplify_eq.
  - simpl in Hrun. unfold mbind, Eff_bind in Hrun. destruct e as [t0 p0|t0 p0]; simpl in Hrun.
    + rewrite created_eq in Hrun. case_decide; apply (IH _ _ _ _ Hrun); [|done].
      by apply deliver_no_empty.
    + rewrite deleted_eq in Hrun. case_decide; apply (IH _ _ _ _ Hrun); [|done].
      by apply deliver_no_empty.
Qed.

Lemma is_live_not_constructed (evs : list Event) (t : nat) (p : Z) :
  Construct t p ∉ evs → is_live evs t p false = false.
Proof.
  induction evs as [|e evs IH]; intros Hnot; [done|].
  apply not_elem_of_cons in Hnot as [Hne Hnot]. destruct e as [t0 p0|t0 p0]; simpl.
  - rewrite decide_False; [by apply IH|]. intros [-> ->]. done.
  - destruct (decide (t0 = t ∧ p0 = p)); by apply IH.
Qed.

Lemma is_live_destroyed (evs1 evs2 : list Event) (t : nat) (p : Z) :
  Construct t p ∉ evs2 → is_live (evs1 ++ Destroy t p :: evs2) t p false = false.
Proof.
  intros Hnot. rewrite is_live_app. simpl. rewrite decide_True by done.
  by apply is_live_not_constructed.
Qed.

(** The Monitor attaches before any pool exists: nothing is buffered, and
    the Monitor lists the pools that are alive. *)
Lemma attached_first (evs : list Event) (mon : ptr) :
  mon ≠ nullptr →
  ∃ c m,
    (Channel.set mon;; for_each evs announce) (Channel.init, init) = Some (tt, (c, m)) ∧
    Channel.pools_ c = ∅ ∧ Channel.mon_ c = mon ∧ no_empty_type m ∧
    ∀ t p, p ∈ at_key (pools_ m) t ↔ is_live evs t p false = true.
Proof.
  intros Hmon.
  set (c := Channel.mkChannel (Channel.pools_ Channel.init) mon).
  set (m1 := deliver (buffered (Channel.pools_ Channel.init)) init).
  assert (Hbuf : ∀ t p, p ∉ at_key (Channel.pools_ c) t).
  { intros t p. unfold at_key. simpl. rewrite lookup_empty. simpl. set_solver. }
  assert (Hlist : ∀ t p, p ∈ at_key (pools_ m1) t ↔ false = true).
  { intros t p. unfold m1. rewrite monitor_replay_elem by apply buffered_all_created.
    rewrite elem_of_buffered. split; [|done].
    intros [(t' & p' & Heq & Hin)|Hin].
    - by apply Hbuf in Hin.
    - unfold at_key in Hin. simpl in Hin. rewrite lookup_empty in Hin. set_solver. }
  destruct (observed_events evs c m1) as (m' & He & Hl); [done| |].
  { intros t p Hp. by apply Hbuf in Hp. }
  exists c, m'. split; [|split; [done|split; [done|split]]].
  - unfold mbind, Eff_bind. rewrite set_eq. rewrite decide_False by done. exact He.
  - apply (announce_no_empty evs c c m1 m' He). apply deliver_no_empty.
    intros t'. simpl. by rewrite lookup_empty.
  - intros t p. rewrite Hl. rewrite (is_live_true evs t p _ false (Hlist t p)).
    split; [|by right]. intros [Hin|Hin]; [by apply Hbuf in Hin|done].
Qed.

(** C3: with the Monitor attached as observer from the start, for every
    sequence of constructions and destructions: once a pool is destroyed
    (and as long as no pool is constructed at its address for its type
    again) the Monitor does not list it, the diagnostics query succeeds
    without the destroyed object, reading only the pools that are alive, and
    when no pool of the type is alive the type is no key of the result. *)
Theorem destroyed_pool_not_listed (evs1 evs2 : list Event) (t : nat) (p : Z) (mon : ptr)
    (o : Objs) :
  mon ≠ nullptr →
  Construct t p ∉ evs2 →
  (∀ t' p', is_live (evs1 ++ Destroy t p :: evs2) t' p' false = true → is_Some (o !! p')) →
  ∃ c m,
    (Channel.set mon;; for_each (evs1 ++ Destroy t p :: evs2) announce) (Channel.init, init)
      = Some (tt, (c, m)) ∧
    (p ∉ at_key (pools_ m) t) ∧
    (∀ t' p', p' ∈ at_key (pools_ m) t' ↔
              is_live (evs1 ++ Destroy t p :: evs2) t' p' false = true) ∧
    stat (m, o) = Some (count_of o <$> pools_ m, (m, o)) ∧
    ((∀ p', is_live (evs1 ++ Destroy t p :: evs2) t p' false = false) →
     pools_ m !! t = None ∧ (count_of o <$> pools_ m) !! t = None).
Proof.
  intros Hmon Hnot Halive.
  destruct (attached_first (evs1 ++ Destroy t p :: evs2) mon Hmon)
    as (c & m & Hrun & _ & _ & Hne & Hl).
  exists c, m. split; [done|]. split; [|split; [done|split]].
  - rewrite Hl, is_live_destroyed by done. done.
  - apply stat_eq. intros t' p' Hin. apply (Halive t'). by apply Hl.
  - intros Hlast.
    assert (Hnone : pools_ m !! t = None).
    { destruct (pools_ m !! t) as [set|] eqn:Hs; [|done].
      destruct (set_choose_or_empty set) as [[p' Hp']|Hemp].
      - assert (Hin : p' ∈ at_key (pools_ m) t) by (unfold at_key; by rewrite Hs).
        apply Hl in Hin. rewrite Hlast in Hin. done.
      - apply leibniz_equiv in Hemp. subst set. by destruct (Hne t). }
    split; [done|]. by rewrite lookup_fmap, Hnone.
Qed.

Lemma foldM_preserves {S A B} (I : S → Prop) (body : B → A → Eff S B) :
  (∀ b y s b' s', I s → body b y s = Some (b', s') → I s') →
  ∀ l b s b' s', I s → foldM body b l s = Some (b', s') → I s'.
Proof.
  intros Hstep. induction l as [|y l IH]; intros b s b' s' Hs Hrun.
  - simpl in Hrun. unfold mret, Eff_ret in Hrun. by simplify_eq.
  - simpl in Hrun. unfold mbind, Eff_bind in Hrun.
    destruct (body b y s) as [[b1 s1]|] eqn:Hb; [|done].
    apply (IH _ _ _ _ (Hstep _ _ _ _ _ Hs Hb) Hrun).
Qed.

Lemma foldM_fails {S A B} (I : S → Prop) (body : B → A → Eff S B) (x : A) :
  (∀ b s, I s → body b x s = None) →
  (∀ b y s b' s', I s → body b y s = Some (b', s') → I s') →
  ∀ l b s, x ∈ l → I s → foldM body b l s = None.
Proof.
  intros Hfail Hstep. induction l as [|y l IH]; intros b s Hin Hs.
  - by apply elem_of_nil in Hin.
  - simpl. unfold mbind, Eff_bind.
    destruct (body b y s) as [[b1 s1]|] eqn:Hb; [|done].
    apply elem_of_cons in Hin as [->|Hin].
    + rewrite Hfail in Hb by done. done.
    + apply IH; [done|]. by apply (Hstep _ _ _ _ _ Hs Hb).
Qed.

(** [stat] runs into every pool the Monitor lists: when one of them is no
    longer an object, the query has no defined result. *)
Lemma stat_reads_listed (m : Monitor) (o : Objs) (t : nat) (p : Z) :
  p ∈ at_key (pools_ m) t → o !! p = None → stat (m, o) = None.
Proof.
  intros Hin Ho. unfold stat. unfold mbind at 1, Eff_bind at 1, gets at 1. cbn [fst].
  set (I := λ s : Monitor * Objs, s.2 !! p = None).
  assert (Hcall : ∀ {A} (f : Eff Pool.Pool A) y s x s',
            I s → call y f s = Some (x, s') → I s').
  { intros A f y s x s' Hs Hc. unfold call in Hc.
    destruct (s.2 !! y) as [py|] eqn:Hy; [|done].
    destruct (f py) as [[x' p']|]; [|done]. simplify_eq. unfold I. simpl.
    rewrite lookup_insert_ne; [done|]. intros ->. unfold I in Hs. congruence. }
  assert (Hinner : ∀ (cnt : Count) y s cnt' s', I s →
            (t ← call y Pool.total_cnt;
             let cnt := mkCount (wrap64 (total_ cnt + t)) (use_ cnt) (pool_ cnt) in
             u ← call y Pool.use_cnt;
             mret (mkCount (total_ cnt) (wrap64 (use_ cnt + u)) (pool_ cnt))) s
            = Some (cnt', s') → I s').
  { intros cnt y s cnt' s' Hs Hb. unfold mbind at 1, Eff_bind at 1 in Hb.
    destruct (call y Pool.total_cnt s) as [[t1 s1]|] eqn:H1; [|done].
    unfold mbind, Eff_bind in Hb.
    destruct (call y Pool.use_cnt s1) as [[u1 s2]|] eqn:H2; [|done].
    unfold mret, Eff_ret in Hb. simplify_eq.
    apply (Hcall _ _ _ _ _ _ (Hcall _ _ _ _ _ _ Hs H1) H2). }
  unfold at_key in Hin. destruct (pools_ m !! t) as [set|] eqn:Hs; simpl in Hin; [|set_solver].
  apply (foldM_fails I _ (t, set)).
  - intros acc s Hi. cbn [fst snd]. unfold mbind at 1, Eff_bind at 1.
    rewrite (foldM_fails I _ p); [done| | |by apply elem_of_elements|done].
    + intros cnt s0 Hi0. unfold mbind at 1, Eff_bind at 1. unfold call at 1.
      unfold I in Hi0. by rewrite Hi0.
    + apply Hinner.
  - intros acc [t' set'] s acc' s' Hi Hb. cbn [fst snd] in Hb.
    unfold mbind at 1, Eff_bind at 1 in Hb.
    match type of Hb with
    | match ?run with _ => _ end = _ => destruct run as [[cnt1 s1]|] eqn:Hf; [|done]
    end.
    unfold mret, Eff_ret in Hb. simplify_eq.
    apply (foldM_preserves I _ Hinner _ _ _ _ _ Hi Hf).
  - by apply elem_of_map_to_list.
  - done.
Qed.

(** X14: the condition of the property above is needed.  A pool that was
    alive when the Monitor attached stays in the channel's buffer; after it
    is destroyed the replay that follows every forwarded call lists it
    again, so the Monitor lists a pool that is not alive and the diagnostics
    query reads an object that no longer exists. *)
Theorem stale_pool_read_by_stat (evs1 evs2 evs3 : list Event) (t : nat) (p : Z) (mon : ptr)
    (o : Objs) :
  mon ≠ nullptr → is_live evs1 t p false = true → Construct t p ∉ evs3 → o !! p = None →
  ∃ c m,
    (for_each evs1 announce;; Channel.set mon;;
     for_each (evs2 ++ Destroy t p :: evs3) announce) (Channel.init, init)
      = Some (tt, (c, m)) ∧
    is_live (evs1 ++ evs2 ++ Destroy t p :: evs3) t p false = false ∧
    p ∈ at_key (pools_ m) t ∧
    stat (m, o) = None.
Proof.
  intros Hmon Hlive Hnot Ho.
  destruct (unobserved_events evs1 Channel.init init eq_refl) as (c1 & He1 & Hm1 & Hl1).
  assert (Hinit : ∀ t p, p ∉ at_key (Channel.pools_ Channel.init) t).
  { intros t' p'. unfold at_key. simpl. rewrite lookup_empty. simpl. set_solver. }
  assert (Hbuf : ∀ t p, p ∈ at_key (Channel.pools_ c1) t ↔ is_live evs1 t p false = true).
  { intros t' p'. rewrite Hl1. by rewrite (bool_decide_eq_false_2 _ (Hinit t' p')). }
  set (c := Channel.mkChannel (Channel.pools_ c1) mon).
  set (m1 := deliver (buffered (Channel.pools_ c1)) init).
  destruct (observed_events (evs2 ++ Destroy t p :: evs3) c m1) as (m' & He2 & Hl2); [done| |].
  { intros t' p' Hp. unfold m1. apply monitor_replay_elem; [apply buffered_all_created|].
    left. apply elem_of_buffered. eauto. }
  assert (Hp : p ∈ at_key (pools_ m') t).
  { apply Hl2. left. by apply Hbuf. }
  exists c, m'. split; [|split; [|split; [done|]]].
  - unfold mbind, Eff_bind. rewrite He1, set_eq. rewrite decide_False by done.
    fold c m1. exact He2.
  - rewrite (app_assoc evs1 evs2). by apply is_live_destroyed.
  - by apply (stat_reads_listed m' o t p).
Qed.

End DestroyedPools.

(** The same in a whole process: a pool is constructed before the Monitor
    exists, the Monitor is constructed, and the pool is destroyed.  The pool
    object is gone, yet the Monitor lists its address under its type, and
    the query runs into the destroyed object. *)
Example stale_pool_in_process :
  ∃ w, (Pool_ctor (λ _, layout16) 1 100 4 1000;; Monitor_inst 4096;; Pool_dtor 1 100) World_init
         = Some (tt, w) ∧
       objs w !! 100 = None ∧
       Monitor.pools_ (monitor w) !! 1%nat = Some {[100]} ∧
       query_stat 4096 w = None.
Proof.
  eexists. split; [vm_compute; reflexivity|]. split; [|split]; vm_compute; reflexivity.
Qed.

(** * Further properties of the accessors *)

Section AccessorsFurther.
Context (layout : nat → Layout).

Lemma in_pool_eq {A} (this : ptr) (f : Eff Pool.State A) (w : World) p x p' h' :
  objs w !! this = Some p → f (p, heap w) = Some (x, (p', h')) →
  in_pool this f w =
    Some (x, mkWorld h' (<[this := p']> (objs w)) (chan w) (monitor w) (monitor_guard w)).
Proof. intros Hp Hf. unfold in_pool. by rewrite Hp, Hf. Qed.

(** A round on a pool whose free list is not empty changes nothing. *)
Lemma round_steady (addr : ptr) (T : nat) (f : ptr) (w : World) (p : Pool.Pool) :
  objs w !! addr = Some p → counters_ok p → Pool.free_ p ≠ nullptr →
  is_Some (obj_next (heap w) !! Pool.free_ p) →
  (t ← get_at layout addr T f; ret_at layout addr T t f;; mret t) w = Some (Pool.free_ p, w).
Proof.
  intros Hp [_ Hu] Hf [n Hn]. unfold get_at, ret_at, mbind, Eff_bind.
  rewrite get_static_pool_created by eauto.
  rewrite (in_pool_eq addr _ w p _ _ _ Hp (get_pop f p (heap w) n Hf Hn)).
  rewrite get_static_pool_created by (simpl; rewrite lookup_insert_eq; eauto).
  erewrite in_pool_eq; [|simpl; apply lookup_insert_eq|simpl; by apply ret_eq].
  unfold mret, Eff_ret. do 2 f_equal. destruct w as [h o c mo g]. simpl in *. f_equal.
  - destruct h. simpl in *. f_equal. by apply insert_id.
  - rewrite insert_insert_eq. apply insert_id. rewrite Hp. f_equal.
    destruct p. unfold Pool.set_free, Pool.set_use_cnt. simpl in *. f_equal.
    replace (wrap64 (use_cnt_ + 1) - 1) with (wrap64 (use_cnt_ + 1) + -1) by lia.
    rewrite wrap64_idemp_l. replace (use_cnt_ + 1 + -1) with use_cnt_ by lia.
    symmetry. by apply wrap64_small.
Qed.

Lemma loop_steady (addr : ptr) (T : nat) (fs : list ptr) (w : World) (p : Pool.Pool) :
  objs w !! addr = Some p → counters_ok p → Pool.free_ p ≠ nullptr →
  is_Some (obj_next (heap w) !! Pool.free_ p) →
  timed_loop (get_at layout addr T) (ret_at layout addr T) fs w =
    Some (replicate (length fs) (Pool.free_ p), w).
Proof.
  intros Hp Hc Hf Hn. induction fs as [|f fs IH]; [reflexivity|].
  pose proof (round_steady addr T f w p Hp Hc Hf Hn) as Hr.
  cbn [timed_loop length replicate]. unfold mbind, Eff_bind, mret, Eff_ret in *.
  destruct (get_at layout addr T f w) as [[t w1]|]; [|done].
  destruct (ret_at layout addr T t f w1) as [[[] w2]|]; [|done].
  simplify_eq. by rewrite IH.
Qed.

Lemma round_first (addr : ptr) (T : nat) (f : ptr) (w : World) c' mo' :
  objs w !! addr = None → 0 < f → 0 ≤ @sizeof_Block (layout T) →
  Channel.created T addr (chan w, monitor w) = Some (tt, (c', mo')) →
  (t ← get_at layout addr T f; ret_at layout addr T t f;; mret t) w =
    Some (f + @sizeof_Block (layout T),
          mkWorld (@heap_after_round (layout T) f (heap w))
                  (<[addr := @pool_after_round (layout T) f]> (objs w))
                  c' mo' (monitor_guard w)).
Proof.
  intros Hnone Hf HB Hcr. unfold get_at, ret_at, mbind, Eff_bind.
  assert (Hg : get_static_pool layout addr T 0 f w =
               Some (addr, mkWorld (heap w) (<[addr := Pool.init]> (objs w)) c' mo'
                                   (monitor_guard w))).
  { unfold get_static_pool. eff_unfold. simpl.
    destruct (decide (is_Some (objs w !! addr))) as [[? Hs]|_]; [congruence|].
    rewrite Pool_ctor_eq, ctor_eq. rewrite decide_False by lia. by rewrite Hcr. }
  rewrite Hg.
  erewrite in_pool_eq; [|simpl; apply lookup_insert_eq|
    simpl; apply get_grow; [done|simpl; lia|unfold nullptr; lia]].
  rewrite get_static_pool_created by (simpl; rewrite lookup_insert_eq; eauto).
  erewrite in_pool_eq; [|simpl; apply lookup_insert_eq|
    simpl; apply ret_eq; unfold nullptr; lia].
  unfold mret, Eff_ret. do 2 f_equal. simpl. f_equal.
  by rewrite !insert_insert_eq.
Qed.

Lemma loop_first (addr : ptr) (T : nat) (f : ptr) (fs : list ptr) (w : World) c' mo' :
  objs w !! addr = None → 0 < f → 0 ≤ @sizeof_Block (layout T) →
  Channel.created T addr (chan w, monitor w) = Some (tt, (c', mo')) →
  timed_loop (get_at layout addr T) (ret_at layout addr T) (f :: fs) w =
    Some (replicate (S (length fs)) (f + @sizeof_Block (layout T)),
          mkWorld (@heap_after_round (layout T) f (heap w))
                  (<[addr := @pool_after_round (layout T) f]> (objs w))
                  c' mo' (monitor_guard w)).
Proof.
  intros Hnone Hf HB Hcr.
  pose proof (round_first addr T f w c' mo' Hnone Hf HB Hcr) as Hr.
  cbn [timed_loop replicate]. unfold mbind, Eff_bind, mret, Eff_ret in *.
  destruct (get_at layout addr T f w) as [[t w1]|]; [|done].
  destruct (ret_at layout addr T t f w1) as [[[] w2]|]; [|done].
  simplify_eq.
  erewrite (loop_steady addr T fs _ (@pool_after_round (layout T) f)).
  - reflexivity.
  - simpl. apply lookup_insert_eq.
  - split; simpl; split; done.
  - simpl. unfold nullptr. lia.
  - simpl. rewrite lookup_insert_eq. eauto.
Qed.

Lemma created_succeeds (T : nat) (addr : ptr) (c : Channel.Channel) (mo : Monitor.Monitor) :
  ∃ c' mo', Channel.created T addr (c, mo) = Some (tt, (c', mo')) ∧
            (Channel.mon_ c = nullptr →
               c' = Channel.mkChannel
                      (<[T := {[addr]} ∪ at_key (Channel.pools_ c) T]> (Channel.pools_ c))
                      nullptr ∧ mo' = mo).
Proof.
  rewrite created_eq. destruct (decide (Channel.mon_ c ≠ nullptr)) as [Hm|Hm].
  - eexists _, _. split; [reflexivity|]. intros ?. done.
  - eexists _, _. split; [reflexivity|]. intros ->. done.
Qed.

Context (singleton_addr tls_addr : nat → Z).

(** X11: a timed loop of [main] on a pool that does not exist yet creates
    the pool, allocates one block of 128 slots in its first round and
    nothing afterwards: every round gets the same slot, the first of the
    block, and the loop ends with nothing in use.  On a pool whose free list
    is not empty the loop changes nothing at all. *)
Theorem timed_loop_reuses_one_slot (T : nat) (f : ptr) (fs : list ptr) (w : World) :
  0 < f → 0 ≤ @sizeof_Block (layout T) →
  (objs w !! singleton_addr T = None →
     ∃ c' mo',
       Channel.created T (singleton_addr T) (chan w, monitor w) = Some (tt, (c', mo')) ∧
       loop_singleton layout singleton_addr T (f :: fs) w =
         Some (replicate (S (length fs)) (f + @sizeof_Block (layout T)),
               mkWorld (@heap_after_round (layout T) f (heap w))
                       (<[singleton_addr T := @pool_after_round (layout T) f]> (objs w))
                       c' mo' (monitor_guard w))) ∧
  (objs w !! tls_addr T = None →
     ∃ c' mo',
       Channel.created T (tls_addr T) (chan w, monitor w) = Some (tt, (c', mo')) ∧
       loop_tls layout tls_addr T (f :: fs) w =
         Some (replicate (S (length fs)) (f + @sizeof_Block (layout T)),
               mkWorld (@heap_after_round (layout T) f (heap w))
                       (<[tls_addr T := @pool_after_round (layout T) f]> (objs w))
                       c' mo' (monitor_guard w))) ∧
  (∀ p, objs w !! singleton_addr T = Some p → counters_ok p → Pool.free_ p ≠ nullptr →
        is_Some (obj_next (heap w) !! Pool.free_ p) →
        loop_singleton layout singleton_addr T (f :: fs) w =
          Some (replicate (S (length fs)) (Pool.free_ p), w)) ∧
  (∀ p, objs w !! tls_addr T = Some p → counters_ok p → Pool.free_ p ≠ nullptr →
        is_Some (obj_next (heap w) !! Pool.free_ p) →
        loop_tls layout tls_addr T (f :: fs) w =
          Some (replicate (S (length fs)) (Pool.free_ p), w)).
Proof.
  intros Hf HB. split; [|split; [|split]].
  - intros Hnone.
    destruct (created_succeeds T (singleton_addr T) (chan w) (monitor w)) as (c' & mo' & Hcr & _).
    exists c', mo'. split; [done|].
    exact (loop_first (singleton_addr T) T f fs w c' mo' Hnone Hf HB Hcr).
  - intros Hnone.
    destruct (created_succeeds T (tls_addr T) (chan w) (monitor w)) as (c' & mo' & Hcr & _).
    exists c', mo'. split; [done|].
    exact (loop_first (tls_addr T) T f fs w c' mo' Hnone Hf HB Hcr).
  - intros p Hp Hc Hfree Hn.
    exact (loop_steady (singleton_addr T) T (f :: fs) w p Hp Hc Hfree Hn).
  - intros p Hp Hc Hfree Hn.
    exact (loop_steady (tls_addr T) T (f :: fs) w p Hp Hc Hfree Hn).
Qed.

Context (monitor_addr : ptr).








End AccessorsFurther.

(** ** Construction and destruction of a pool object *)

Section LifetimeFurther.
Context (layout : nat → Layout).

Lemma Pool_dtor_eq (T : nat) (this : ptr) (w : World) :
  Pool_dtor T this w =
    match Channel.deleted T this (chan w, monitor w) with
    | Some (_, (c, mo)) =>
        match objs w !! this with
        | Some p =>
            match free_blocks (length (allocated (heap w))) (Pool.blocks_ p) (heap w) with
            | Some m' => Some (tt, mkWorld m' (delete this (objs w)) c mo (monitor_guard w))
            | None => None
            end
        | None => None
        end
    | None => None
    end.
Proof.
  unfold Pool_dtor, in_pool, in_registry. eff_unfold. cbn [heap objs chan monitor monitor_guard].
  destruct (Channel.deleted T this (chan w, monitor w)) as [[[] [c mo]]|]; [|done].
  cbn [heap objs chan monitor monitor_guard].
  destruct (objs w !! this) as [p|]; [|done]. cbn [fst snd].
  destruct (free_blocks _ _ _) as [m'|]; [|done]. cbn.
  by rewrite delete_insert_eq.
Qed.

(** X13: a pool constructed and destroyed at once, with no observer
    attached.  The destructor finds the block of the constructor (if there
    is one) and frees it; the pool object, the allocator and every set of the
    channel's buffer are as before the construction. *)
Theorem construct_destroy_round_trip (T : nat) (this : ptr) (cnt : Z) (fresh : ptr) (w : World) :
  objs w !! this = None → Channel.mon_ (chan w) = nullptr →
  (this ∉ at_key (Channel.pools_ (chan w)) T) → (0 < cnt → fresh ≠ nullptr) →
  ∃ w',
    (Pool_ctor layout T this cnt fresh;; Pool_dtor T this) w = Some (tt, w') ∧
    objs w' = objs w ∧ allocated (heap w') = allocated (heap w) ∧
    obj_next (heap w') = obj_next (heap w) ∧ monitor w' = monitor w ∧
    Channel.mon_ (chan w') = nullptr ∧
    ∀ t, at_key (Channel.pools_ (chan w')) t = at_key (Channel.pools_ (chan w)) t.
Proof.
  intros Hnone Hq Hnew Hf. unfold mbind, Eff_bind.
  rewrite Pool_ctor_eq, ctor_eq, created_eq. rewrite (decide_False (P := _ ≠ _)) by tauto.
  assert (Hkeys : ∀ t,
            at_key (<[T := at_key (<[T := {[this]} ∪ at_key (Channel.pools_ (chan w)) T]>
                                     (Channel.pools_ (chan w))) T ∖ {[this]}]>
                      (<[T := {[this]} ∪ at_key (Channel.pools_ (chan w)) T]>
                         (Channel.pools_ (chan w)))) t
            = at_key (Channel.pools_ (chan w)) t).
  { intros t. rewrite !at_key_insert. rewrite (decide_True (P := T = T)) by done.
    destruct (decide (T = t)) as [->|?]; [set_solver|done]. }
  assert (Hfb : ∀ n h, free_blocks n nullptr h = Some h) by (by intros [|n] h).
  destruct (decide (0 < cnt)) as [Hc|Hc].
  - rewrite decide_False by auto. rewrite Pool_dtor_eq.
    cbn [heap objs chan monitor monitor_guard]. rewrite deleted_eq.
    rewrite (decide_False (P := _ ≠ _)) by (simpl; tauto).
    rewrite lookup_insert_eq.
    unfold grown_heap, grown.
    cbn [fst snd allocated length free_blocks Pool.blocks_ Pool.set_blocks].
    rewrite decide_False by auto. cbn [block_next]. rewrite lookup_insert_eq.
    cbn [mbind option_bind]. unfold free. cbn [allocated remove_block fst].
    rewrite decide_True by done. cbn [mbind option_bind]. rewrite Hfb.
    eexists. split; [reflexivity|]. cbn [heap objs chan monitor monitor_guard obj_next
        allocated Channel.pools_ Channel.mon_].
    rewrite delete_insert_eq, delete_id by done. done.
  - rewrite Pool_dtor_eq.
    cbn [heap objs chan monitor monitor_guard]. rewrite deleted_eq.
    rewrite (decide_False (P := _ ≠ _)) by (simpl; tauto).
    rewrite lookup_insert_eq.
    cbn [fst snd Pool.init Pool.blocks_]. rewrite Hfb.
    eexists. split; [reflexivity|]. cbn [heap objs chan monitor monitor_guard obj_next
      allocated Channel.pools_ Channel.mon_].
    rewrite delete_insert_eq, delete_id by done. done.
Qed.

End LifetimeFurther.

(** ** Concrete runs of the further properties

    As before: [Pool<Mem<8>>] with 16-byte slots, blocks of two slots at
    1000, 2000, ... *)

Lemma get_returns_unused_slot_witness :
  ∃ outs a s,
    @life layout16 2 1000 ([Get 0; Get 0; Get 2000; Ret 1008] ++ [Get 0]) empty_Heap =
      Some (outs ++ [a], s) ∧
    a ≠ nullptr ∧ (a ∉ live_of [Get 0; Get 0; Get 2000; Ret 1008] outs ∅) ∧
    Pool.use_cnt_ s.1 = Z.of_nat (size (live_of [Get 0; Get 0; Get 2000; Ret 1008] outs ∅)) + 1.
Proof.
  apply (@get_returns_unused_slot layout16 2 1000 empty_Heap
           [Get 0; Get 0; Get 2000; Ret 1008] 0).
  - exact layout16_ok_2.
  - vm_compute. reflexivity.
Defined.

Lemma slots_inside_blocks_and_apart_witness :
  ∃ outs s own,
    @life layout16 2 1000 [Get 0; Get 0; Get 2000; Ret 1008; Get 0] empty_Heap = Some (outs, s) ∧
    allocated s.2 = own ++ allocated empty_Heap ∧
    (∀ a, a ∈ outs →
       ∃ b i, (b, @Pool.block_bytes layout16 (slots 2)) ∈ own ∧ 0 ≤ i < slots 2 ∧
              a = @slot_of layout16 b i ∧
              b + @sizeof_Block layout16 ≤ a ∧
              a + @sizeof_Obj layout16 ≤ b + @Pool.block_bytes layout16 (slots 2)) ∧
    (∀ a a', a ∈ outs → a' ∈ outs →
       a = a' ∨ a + @sizeof_Obj layout16 ≤ a' ∨ a' + @sizeof_Obj layout16 ≤ a).
Proof.
  apply (@slots_inside_blocks_and_apart layout16 2 1000 empty_Heap
           [Get 0; Get 0; Get 2000; Ret 1008; Get 0]).
  - exact layout16_ok_2.
  - vm_compute. reflexivity.
Defined.


Lemma grows_only_when_full_witness :
  ∃ outs s,
    @life layout16 2 1000 [Get 0; Get 0; Get 2000; Ret 1008] empty_Heap = Some (outs, s) ∧
    Pool.use_cnt_ s.1 ≤ Pool.total_cnt_ s.1 ∧
    (grows s.1 = true ↔ Pool.use_cnt_ s.1 = Pool.total_cnt_ s.1).
Proof.
  apply (@grows_only_when_full layout16 2 1000 empty_Heap [Get 0; Get 0; Get 2000; Ret 1008]).
  - exact layout16_ok_2.
  - vm_compute. reflexivity.
Defined.

Lemma destructor_frees_every_block_witness :
  let m := mkHeap ∅ {[500 := 0]} [(500, 64)] in
  ∃ outs s h',
    @life layout16 2 1000 [Get 0; Get 0; Get 2000; Ret 1008] m = Some (outs, s) ∧
    free_blocks (length (allocated s.2)) (Pool.blocks_ s.1) s.2 = Some h' ∧
    allocated h' = allocated m ∧ obj_next h' = obj_next s.2 ∧
    (∀ b sz, (b, sz) ∈ allocated s.2 → (b, sz) ∈ allocated m ∨ block_next h' !! b = None).
Proof.
  intros m.
  apply (@destructor_frees_every_block layout16 2 1000 m [Get 0; Get 0; Get 2000; Ret 1008]).
  - exact layout16_ok_2.
  - vm_compute. reflexivity.
Defined.

Lemma get_ret_restores_witness :
  let p := Pool.mkPool 1040 1072 1008 1000 4 4 1 in
  let m := mkHeap {[1008 := 0]} {[1000 := 0]} [(1000, 72)] in
  (a ← @Pool.get layout16 0; Pool.ret a;; mret a) (p, m) = Some (1008, (p, m)).
Proof.
  intros p m. apply (@get_ret_restores layout16 0 p m).
  - split; split; done.
  - discriminate.
  - eexists. reflexivity.
Defined.

Lemma replay_is_absorbed_witness :
  let c := Channel.mkChannel {[1%nat := {[100]}]} 4096 in
  let m := Monitor.mkMonitor {[1%nat := {[100]}]} in
  Channel.created 2%nat 300 (c, m) = Some (tt, (c, Monitor.created 2%nat 300 m)) ∧
  buffer_listed c (Monitor.created 2%nat 300 m).
Proof.
  intros c m. apply (replay_is_absorbed 2%nat 300 c m).
  - discriminate.
  - intros t p Hin. exact Hin.
Defined.

Lemma monitor_lists_buffered_and_live_witness :
  let evs1 := [Construct 1%nat 100; Construct 1%nat 200; Destroy 1%nat 100] in
  let evs2 := [Construct 2%nat 300; Destroy 1%nat 200] in
  ∃ c m,
    (for_each evs1 announce;; Channel.set 4096;; for_each evs2 announce)
      (Channel.init, Monitor.init) = Some (tt, (c, m)) ∧
    (∀ t p, p ∈ at_key (Channel.pools_ c) t ↔ is_live evs1 t p false = true) ∧
    (∀ t p, p ∈ at_key (Monitor.pools_ m) t ↔
            is_live evs1 t p false = true ∨ is_live (evs1 ++ evs2) t p false = true).
Proof.
  intros evs1 evs2. apply (monitor_lists_buffered_and_live evs1 evs2 4096). discriminate.
Defined.

Lemma stat_rows_have_pools_witness :
  let cs := [Created 1%nat 100] in
  let o : Objs := {[100 := Pool.mkPool 1040 1072 1008 1000 4 4 1]} in
  ∃ st,
    Monitor.stat (deliver cs Monitor.init, o) = Some (st, (deliver cs Monitor.init, o)) ∧
    dom st = dom (Monitor.pools_ (deliver cs Monitor.init)) ∧
    (∀ t cnt, st !! t = Some cnt →
       1 ≤ Monitor.pool_ cnt ∧ 0 ≤ Monitor.total_ cnt < 2 ^ 64 ∧ 0 ≤ Monitor.use_ cnt < 2 ^ 64) ∧
    Monitor.stat (Monitor.init, o) = Some (∅, (Monitor.init, o)).
Proof.
  intros cs o. apply (stat_rows_have_pools cs o).
  intros t pool Hin. unfold at_key in Hin. simpl in Hin.
  destruct (decide (t = 1%nat)) as [->|Hne].
  - rewrite lookup_insert_eq in Hin. simpl in Hin.
    apply elem_of_union in Hin as [Hin|Hin].
    + apply elem_of_singleton in Hin. subst pool. eexists. reflexivity.
    + by apply not_elem_of_empty in Hin.
  - rewrite lookup_insert_ne in Hin by done. simpl in Hin. by apply not_elem_of_empty in Hin.
Defined.

Lemma timed_loop_reuses_one_slot_witness :
  let layout := λ _ : nat, layout16 in
  ∃ c' mo',
    Channel.created 0%nat 5000 (Channel.init, Monitor.init) = Some (tt, (c', mo')) ∧
    loop_singleton layout (λ _, 5000) 0%nat [1000; 0; 0] World_init =
      Some (replicate 3 1008,
            mkWorld (@heap_after_round layout16 1000 empty_Heap)
                    (<[5000 := @pool_after_round layout16 1000]> ∅)
                    c' mo' false).
Proof.
  intros layout.
  destruct (timed_loop_reuses_one_slot layout (λ _, 5000) (λ _, 6000) 0%nat 1000 [0; 0]
              World_init) as (H1 & _).
  - reflexivity.
  - discriminate.
  - apply H1. reflexivity.
Defined.


Lemma construct_destroy_round_trip_witness :
  let layout := λ _ : nat, layout16 in
  ∃ w',
    (Pool_ctor layout 0%nat 5000 4 1000;; Pool_dtor 0%nat 5000) World_init = Some (tt, w') ∧
    objs w' = objs World_init ∧ allocated (heap w') = allocated (heap World_init) ∧
    obj_next (heap w') = obj_next (heap World_init) ∧ monitor w' = monitor World_init ∧
    Channel.mon_ (chan w') = nullptr ∧
    ∀ t, at_key (Channel.pools_ (chan w')) t = at_key (Channel.pools_ (chan World_init)) t.
Proof.
  intros layout. apply (construct_destroy_round_trip layout 0%nat 5000 4 1000 World_init).
  - reflexivity.
  - reflexivity.
  - apply not_elem_of_empty.
  - discriminate.
Defined.

Lemma destroyed_pool_not_listed_witness :
  let evs := [Construct 1%nat 100; Construct 2%nat 200] ++ Destroy 1%nat 100 :: [] in
  let o : Objs := {[200 := Pool.init]} in
  ∃ c m,
    (Channel.set 4096;; for_each evs announce) (Channel.init, Monitor.init) = Some (tt, (c, m)) ∧
    (100 ∉ at_key (Monitor.pools_ m) 1%nat) ∧
    (∀ t' p', p' ∈ at_key (Monitor.pools_ m) t' ↔ is_live evs t' p' false = true) ∧
    Monitor.stat (m, o) = Some (count_of o <$> Monitor.pools_ m, (m, o)) ∧
    ((∀ p', is_live evs 1%nat p' false = false) →
     Monitor.pools_ m !! 1%nat = None ∧ (count_of o <$> Monitor.pools_ m) !! 1%nat = None).
Proof.
  intros evs o.
  apply (destroyed_pool_not_listed [Construct 1%nat 100; Construct 2%nat 200] [] 1%nat 100
           4096 o).
  - discriminate.
  - apply not_elem_of_nil.
  - intros t' p' Hlive. simpl in Hlive.
    destruct (decide (2%nat = t' ∧ 200 = p')) as [[_ <-]|Hne].
    + eexists. reflexivity.
    + repeat case_decide; discriminate.
Defined.

Lemma stale_pool_read_by_stat_witness :
  ∃ c m,
    (for_each [Construct 1%nat 100] announce;; Channel.set 4096;;
     for_each ([] ++ Destroy 1%nat 100 :: []) announce) (Channel.init, Monitor.init)
      = Some (tt, (c, m)) ∧
    is_live ([Construct 1%nat 100] ++ [] ++ Destroy 1%nat 100 :: []) 1%nat 100 false = false ∧
    100 ∈ at_key (Monitor.pools_ m) 1%nat ∧
    Monitor.stat (m, (∅ : Objs)) = None.
Proof.
  apply (stale_pool_read_by_stat [Construct 1%nat 100] [] [] 1%nat 100 4096 ∅).
  - discriminate.
  - reflexivity.
  - apply not_elem_of_nil.
  - reflexivity.
Defined.
